(** * BlockArt ink-miner and blockartlib: a shallow embedding

    The Go sources embedded here are [miner/ink-miner.go] (the miner: block
    generation, proof of work, chain validation, the art-node RPC handlers)
    and [blockartlib/blockartlib.go] (the client library used by art
    applications).

    Conventions.
    - Go strings are byte sequences: [string] (a list of 8-bit [ascii]).
    - [uint8], [uint32] and [int] values are integers in [Z]; every place
      where the Go code can wrap around is written out with [uint32] or
      [int64].
    - The package-level variables of the miner form the record [Globals];
      every function that reads or writes one takes and returns it.
    - Go maps are reference objects.  A block stores references into a
      store of map objects kept in [Globals], so that two blocks holding
      the same map see each other's updates, as in the source.  A
      reference that is not a position of the store is a nil map: reading
      it gives the zero value, assigning to it panics.
    - [calculateHash] is an unbounded search.  It is modelled with a step
      budget; [None] means that the budget was exhausted. *)

From Stdlib Require Import ZArith List String Ascii Lia Bool DecimalString DecimalZ.
From stdpp Require Import gmap strings list.
Import ListNotations.
Local Open Scope string_scope.
Local Open Scope Z_scope.

(** ** crypto/md5 and encoding/hex *)

Module MD5.

Definition mask32 : Z := 0xffffffff.
Definition add32 (a b : Z) : Z := Z.land (a + b) mask32.
Definition not32 (x : Z) : Z := Z.lxor x mask32.
Definition rotl32 (x c : Z) : Z :=
  Z.lor (Z.land (Z.shiftl x c) mask32) (Z.shiftr x (32 - c)).

Definition shifts : list Z :=
  [7; 12; 17; 22; 7; 12; 17; 22; 7; 12; 17; 22; 7; 12; 17; 22;
   5; 9; 14; 20; 5; 9; 14; 20; 5; 9; 14; 20; 5; 9; 14; 20;
   4; 11; 16; 23; 4; 11; 16; 23; 4; 11; 16; 23; 4; 11; 16; 23;
   6; 10; 15; 21; 6; 10; 15; 21; 6; 10; 15; 21; 6; 10; 15; 21].

Definition sines : list Z :=
  [0xd76aa478; 0xe8c7b756; 0x242070db; 0xc1bdceee; 0xf57c0faf; 0x4787c62a;
   0xa8304613; 0xfd469501; 0x698098d8; 0x8b44f7af; 0xffff5bb1; 0x895cd7be;
   0x6b901122; 0xfd987193; 0xa679438e; 0x49b40821; 0xf61e2562; 0xc040b340;
   0x265e5a51; 0xe9b6c7aa; 0xd62f105d; 0x02441453; 0xd8a1e681; 0xe7d3fbc8;
   0x21e1cde6; 0xc33707d6; 0xf4d50d87; 0x455a14ed; 0xa9e3e905; 0xfcefa3f8;
   0x676f02d9; 0x8d2a4c8a; 0xfffa3942; 0x8771f681; 0x6d9d6122; 0xfde5380c;
   0xa4beea44; 0x4bdecfa9; 0xf6bb4b60; 0xbebfbc70; 0x289b7ec6; 0xeaa127fa;
   0xd4ef3085; 0x04881d05; 0xd9d4d039; 0xe6db99e5; 0x1fa27cf8; 0xc4ac5665;
   0xf4292244; 0x432aff97; 0xab9423a7; 0xfc93a039; 0x655b59c3; 0x8f0ccc92;
   0xffeff47d; 0x85845dd1; 0x6fa87e4f; 0xfe2ce6e0; 0xa3014314; 0x4e0811a1;
   0xf7537e82; 0xbd3af235; 0x2ad7d2bb; 0xeb86d391].

(** The [n] low bytes of [x], least significant first. *)
Fixpoint bytes_le (n : nat) (x : Z) : list Z :=
  match n with
  | O => []
  | S n' => Z.land x 0xff :: bytes_le n' (Z.shiftr x 8)
  end.

(** The integer whose little-endian bytes are [bs]. *)
Fixpoint word_le (bs : list Z) : Z :=
  match bs with
  | [] => 0
  | b :: bs' => Z.lor b (Z.shiftl (word_le bs') 8)
  end.

Fixpoint words (n : nat) (bs : list Z) : list Z :=
  match n with
  | O => []
  | S n' => word_le (firstn 4 bs) :: words n' (skipn 4 bs)
  end.

Definition pad (msg : list Z) : list Z :=
  let len := Z.of_nat (List.length msg) in
  (msg ++ [0x80] ++ repeat 0 (Z.to_nat ((55 - len) mod 64))
       ++ bytes_le 8 (Z.land (8 * len) 0xffffffffffffffff))%list.

Definition regs : Type := Z * Z * Z * Z.

Definition init : regs := (0x67452301, 0xefcdab89, 0x98badcfe, 0x10325476).

Definition step (M : list Z) (r : regs) (i : nat) : regs :=
  let '(A, B, C, D) := r in
  let iz := Z.of_nat i in
  let '(F, g) :=
    if iz <? 16 then (Z.lor (Z.land B C) (Z.land (not32 B) D), iz)
    else if iz <? 32 then
      (Z.lor (Z.land D B) (Z.land (not32 D) C), (5 * iz + 1) mod 16)
    else if iz <? 48 then (Z.lxor (Z.lxor B C) D, (3 * iz + 5) mod 16)
    else (Z.lxor C (Z.lor B (not32 D)), (7 * iz) mod 16) in
  let F' := add32 (add32 (add32 F A) (nth i sines 0)) (nth (Z.to_nat g) M 0) in
  (D, add32 B (rotl32 F' (nth i shifts 0)), B, C).

Definition block (r : regs) (chunk : list Z) : regs :=
  let M := words 16 chunk in
  let '(a0, b0, c0, d0) := r in
  let '(A, B, C, D) := fold_left (step M) (seq 0 64) r in
  (add32 a0 A, add32 b0 B, add32 c0 C, add32 d0 D).

Fixpoint blocks (n : nat) (r : regs) (bs : list Z) : regs :=
  match n with
  | O => r
  | S n' => blocks n' (block r (firstn 64 bs)) (skipn 64 bs)
  end.

(** [h := md5.New(); h.Write(msg); h.Sum(nil)]: the 16-byte digest. *)
Definition sum (msg : list Z) : list Z :=
  let p := pad msg in
  let '(A, B, C, D) := blocks (Nat.div (List.length p) 64) init p in
  (bytes_le 4 A ++ bytes_le 4 B ++ bytes_le 4 C ++ bytes_le 4 D)%list.

End MD5.

Definition bytes_of_string (s : string) : list Z :=
  map (fun c => Z.of_N (N_of_ascii c)) (list_ascii_of_string s).

Definition string_of_bytes (bs : list Z) : string :=
  string_of_list_ascii (map (fun b => ascii_of_N (Z.to_N b)) bs).

Definition hexdigit (n : Z) : ascii :=
  nth (Z.to_nat n) (list_ascii_of_string "0123456789abcdef") "0"%char.

(** [hex.EncodeToString]: two lower-case hexadecimal digits per byte. *)
Fixpoint hex_EncodeToString (bs : list Z) : string :=
  match bs with
  | [] => EmptyString
  | b :: bs' =>
      String (hexdigit (b / 16))
        (String (hexdigit (b mod 16)) (hex_EncodeToString bs'))
  end.

(** ** Integers and strings of the Go runtime and of strconv, strings *)

Definition uint32 (x : Z) : Z := x mod 2 ^ 32.

Definition int64 (x : Z) : Z := (x + 2 ^ 63) mod 2 ^ 64 - 2 ^ 63.

(** [strconv.FormatInt(j, 10)] and [strconv.FormatUint(j, 10)]. *)
Definition FormatInt (j : Z) : string := NilEmpty.string_of_int (Z.to_int j).

(** [strconv.ParseUint(s, 10, bitSize)], the value returned: a string that
    is not a digit sequence gives 0, a value out of range gives the largest
    value of the size.  (The error, which every caller discards, is not
    modelled.) *)
Definition ParseUint (s : string) (bitSize : Z) : Z :=
  match NilEmpty.uint_of_string s with
  | Some d =>
      let v := Z.of_uint d in
      if v <? 2 ^ bitSize then v else 2 ^ bitSize - 1
  | None => 0
  end.

(** The conversion [string(i)] of an integer: the UTF-8 encoding of the
    code point [i], and of U+FFFD when [i] is not a valid code point. *)
Definition utf8_rune (r : Z) : list Z :=
  if (r <? 0) || (0x10FFFF <? r) || ((0xD800 <=? r) && (r <=? 0xDFFF))
  then [0xEF; 0xBF; 0xBD]
  else if r <? 0x80 then [r]
  else if r <? 0x800 then
    [Z.lor 0xC0 (Z.shiftr r 6); Z.lor 0x80 (Z.land r 0x3F)]
  else if r <? 0x10000 then
    [Z.lor 0xE0 (Z.shiftr r 12); Z.lor 0x80 (Z.land (Z.shiftr r 6) 0x3F);
     Z.lor 0x80 (Z.land r 0x3F)]
  else
    [Z.lor 0xF0 (Z.shiftr r 18); Z.lor 0x80 (Z.land (Z.shiftr r 12) 0x3F);
     Z.lor 0x80 (Z.land (Z.shiftr r 6) 0x3F); Z.lor 0x80 (Z.land r 0x3F)].

Definition string_of_int (i : Z) : string := string_of_bytes (utf8_rune i).

(** [strings.Repeat] and [strings.HasSuffix]. *)
Fixpoint Repeat (s : string) (count : nat) : string :=
  match count with
  | O => EmptyString
  | S n => String.append s (Repeat s n)
  end.

Definition HasSuffix (s suffix : string) : bool :=
  (String.length suffix <=? String.length s)%nat
  && String.eqb
       (substring (String.length s - String.length suffix)
          (String.length suffix) s)
       suffix.

(** A double quote character, as a string. *)
Definition dquote : string := String (ascii_of_nat 34) EmptyString.

(** ** miner/ink-miner.go *)

Module Miner.

Record CanvasSettings := {
  CanvasXMax : Z;
  CanvasYMax : Z
}.

(** [MinerNetSettings], with the embedded [MinerSettings] flattened. *)
Record MinerNetSettings := {
  GenesisBlockHash : string;
  MinNumMinerConnections : Z;
  InkPerOpBlock : Z;
  InkPerNoOpBlock : Z;
  HeartBeat : Z;
  PoWDifficultyOpBlock : Z;
  PoWDifficultyNoOpBlock : Z;
  canvasSettings : CanvasSettings
}.

Record Operation := {
  AppShape : string;
  OpSig : string;
  PubKeyArtNode : string
}.

Record InkAccount := {
  inkMined : Z;
  inkSpent : Z;
  inkRemain : Z
}.

(** Modelled from the spec: the type [SvgHelper.MapPoint] of the package
    [SvgHelper], which is not among the sources.  The spec describes the
    canvas ownership map as taking a pixel to an owning miner key and a
    reference count.  The miner only passes these maps along. *)
Record MapPoint := {
  owner : string;
  count : Z
}.

(** A reference to a map object in the store of [Globals]. *)
Definition ref : Type := nat.

Record Block := {
  PrevHash : string;
  Nonce : Z;
  Ops : list Operation;
  NoOpBlock : bool;
  PubKeyMiner : string;
  Index : Z;
  MinerInks : ref;
  CanvasInks : ref;
  CanvasOperations : ref
}.

(** [ecdsa.PublicKey]; [None] is a nil [*big.Int]. *)
Record PublicKey := {
  X : option Z;
  Y : option Z
}.

Record AddShapeStruct := {
  ValidateNum : Z;
  SType : Z;
  ShapeSvgString : string;
  Fill : string;
  Stroke : string;
  ArtNodePK : string
}.

Record AddShapeReply := {
  ShapeHash : string;
  BlockHash : string;
  InkRemaining : Z
}.

Record DelShapeArgs := {
  validateNum : Z;
  shapeHash : string;
  DelArtNodePK : string
}.

Inductive Error : Type :=
| InvalidMinerPKError (e : string)
| InvalidShapeHashError (e : string)
| ShapeOwnerError (e : string)
| InvalidBlockHashError (e : string)
| InsufficientInkError (e : Z)
| SvgHelperError (msg : string).

(** The [Error()] methods. *)
Definition Error_string (e : Error) : string :=
  match e with
  | InvalidMinerPKError s =>
      String.append "BlockArt: Invalid miner's private/public key ["
        (String.append s "]")
  | InvalidShapeHashError s =>
      String.append "BlockArt: Invalid shape hash [" (String.append s "]")
  | ShapeOwnerError s =>
      String.append "BlockArt: Shape owned by someone else ["
        (String.append s "]")
  | InvalidBlockHashError s =>
      String.append "BlockArt: Invalid block hash [" (String.append s "]")
  | InsufficientInkError n =>
      String.append "BlockArt: Not enough ink to addShape ["
        (String.append (FormatInt n) "]")
  | SvgHelperError msg => msg
  end.

(** How a function can end: it returns, it panics (an index out of range,
    an assignment to an entry of a nil map), or a nonce search in it did
    not end within the step budget. *)
Inductive Outcome (A : Type) : Type :=
| Returned (a : A)
| Panicked
| Exhausted.

Arguments Returned {A} a.
Arguments Panicked {A}.
Arguments Exhausted {A}.

(** What was returned, and [d] when nothing was. *)
Definition returnedOr {A : Type} (d : A) (o : Outcome A) : A :=
  match o with
  | Returned a => a
  | _ => d
  end.

(** The package-level variables, and the store of map objects.  The maps
    of a block are positions in [inkMaps], [canvasMaps] and [opsMaps]. *)
Record Globals := {
  blockChain : list Block;
  settings : MinerNetSettings;
  myPrivKey : PublicKey;
  myKeyPairInString : string;
  currInkMined : Z;
  inkMaps : list (gmap string InkAccount);
  canvasMaps : list (gmap string MapPoint);
  opsMaps : list (gmap string (list string))
}.

Definition set_blockChain (g : Globals) (bc : list Block) : Globals :=
  {| blockChain := bc; settings := settings g; myPrivKey := myPrivKey g;
     myKeyPairInString := myKeyPairInString g;
     currInkMined := currInkMined g; inkMaps := inkMaps g;
     canvasMaps := canvasMaps g; opsMaps := opsMaps g |}.

Definition set_currInkMined (g : Globals) (v : Z) : Globals :=
  {| blockChain := blockChain g; settings := settings g;
     myPrivKey := myPrivKey g; myKeyPairInString := myKeyPairInString g;
     currInkMined := v; inkMaps := inkMaps g;
     canvasMaps := canvasMaps g; opsMaps := opsMaps g |}.

Definition set_inkMaps (g : Globals) (h : list (gmap string InkAccount))
  : Globals :=
  {| blockChain := blockChain g; settings := settings g;
     myPrivKey := myPrivKey g; myKeyPairInString := myKeyPairInString g;
     currInkMined := currInkMined g; inkMaps := h;
     canvasMaps := canvasMaps g; opsMaps := opsMaps g |}.

Definition set_canvasMaps (g : Globals) (h : list (gmap string MapPoint))
  : Globals :=
  {| blockChain := blockChain g; settings := settings g;
     myPrivKey := myPrivKey g; myKeyPairInString := myKeyPairInString g;
     currInkMined := currInkMined g; inkMaps := inkMaps g;
     canvasMaps := h; opsMaps := opsMaps g |}.

Definition set_opsMaps (g : Globals) (h : list (gmap string (list string)))
  : Globals :=
  {| blockChain := blockChain g; settings := settings g;
     myPrivKey := myPrivKey g; myKeyPairInString := myKeyPairInString g;
     currInkMined := currInkMined g; inkMaps := inkMaps g;
     canvasMaps := canvasMaps g; opsMaps := h |}.

(** A reference that is not a position of the store is a nil map: it
    reads as the empty map, and an assignment to one of its entries
    panics. *)
Definition allocated {A : Type} (store : list A) (r : ref) : bool :=
  (r <? List.length store)%nat.

(** Reading a map object; a key that is absent reads as the zero value. *)
Definition inkMap (g : Globals) (r : ref) : gmap string InkAccount :=
  default ∅ (inkMaps g !! r).

Definition canvasMap (g : Globals) (r : ref) : gmap string MapPoint :=
  default ∅ (canvasMaps g !! r).

Definition opsMap (g : Globals) (r : ref) : gmap string (list string) :=
  default ∅ (opsMaps g !! r).

Definition zeroInkAccount : InkAccount :=
  {| inkMined := 0; inkSpent := 0; inkRemain := 0 |}.

Definition readInk (g : Globals) (r : ref) (k : string) : InkAccount :=
  default zeroInkAccount (inkMap g r !! k).

Definition readOps (g : Globals) (r : ref) (k : string) : list string :=
  default [] (opsMap g r !! k).

(** [fmt.Sprintf("%s%s", pubKey.X, pubKey.Y)]: a [*big.Int] prints in
    decimal, and as [<nil>] when it is nil. *)
Definition fmt_bigInt (x : option Z) : string :=
  match x with
  | Some v => FormatInt v
  | None => "<nil>"
  end.

Definition getPubKeyInStr (pubKey : PublicKey) : string :=
  String.append (fmt_bigInt (X pubKey)) (fmt_bigInt (Y pubKey)).

(** *** Hashing and proof of work *)

Fixpoint convertOpToString (ops : list Operation) : string :=
  match ops with
  | [] => EmptyString
  | element :: rest =>
      String.append
        (String.append (String.append (AppShape element) (OpSig element))
           (PubKeyArtNode element))
        (convertOpToString rest)
  end.

Definition blkToString (b : Block) : string :=
  String.append
    (String.append (String.append (PrevHash b) (convertOpToString (Ops b)))
       (PubKeyMiner b))
    (string_of_int (Index b)).

Definition hasNZeros (hash : string) (n : Z) : bool :=
  HasSuffix hash (Repeat "0" (Z.to_nat n)).

Definition computeNonceSecretHash (nonce secret : string) : string :=
  hex_EncodeToString (MD5.sum (bytes_of_string (String.append nonce secret))).

(** The loop of [calculateHash], started at counter [j]. *)
Fixpoint calculateHash_from (fuel : nat) (blockString : string)
  (powDifficulty : Z) (j : Z) : option (string * string) :=
  match fuel with
  | O => None
  | S fuel' =>
      let nonce := FormatInt j in
      let hash := computeNonceSecretHash blockString nonce in
      if hasNZeros hash powDifficulty then Some (hash, nonce)
      else calculateHash_from fuel' blockString powDifficulty (int64 (j + 1))
  end.

Definition calculateHash (fuel : nat) (b : Block) (powDifficulty : Z)
  : option (string * string) :=
  calculateHash_from fuel (blkToString b) powDifficulty 0.

Definition isSentChainLonger (g : Globals) (newBlocks : list Block) : bool :=
  (List.length (blockChain g) <? List.length newBlocks)%nat.

Definition isNoOpBlock (block : Block) : bool :=
  match Ops block with
  | [] => true
  | _ => false
  end.

(** The difficulty that the miner selects from the [NoOpBlock] field. *)
Definition difficultyOf (g : Globals) (b : Block) : Z :=
  if NoOpBlock b then PoWDifficultyNoOpBlock (settings g)
  else PoWDifficultyOpBlock (settings g).

(** *** Block generation *)

(** [generateFirstBlock]: three fresh maps, no nonce search. *)
Definition generateFirstBlock (g : Globals) : Block * Globals :=
  let mInks : gmap string InkAccount :=
    <[ getPubKeyInStr (myPrivKey g) :=
         {| inkMined := InkPerNoOpBlock (settings g);
            inkSpent := 0;
            inkRemain := InkPerNoOpBlock (settings g) |} ]> ∅ in
  let blk :=
    {| PrevHash := GenesisBlockHash (settings g);
       Nonce := 0;
       Ops := [];
       NoOpBlock := true;
       PubKeyMiner := getPubKeyInStr (myPrivKey g);
       Index := 1;
       MinerInks := List.length (inkMaps g);
       CanvasInks := List.length (canvasMaps g);
       CanvasOperations := List.length (opsMaps g) |} in
  (blk,
   {| blockChain := blockChain g; settings := settings g;
      myPrivKey := myPrivKey g; myKeyPairInString := myKeyPairInString g;
      currInkMined := currInkMined g;
      inkMaps := (inkMaps g ++ [mInks])%list;
      canvasMaps := (canvasMaps g ++ [∅])%list;
      opsMaps := (opsMaps g ++ [∅])%list |}).

Definition with_Nonce (b : Block) (n : Z) : Block :=
  {| PrevHash := PrevHash b; Nonce := n; Ops := Ops b;
     NoOpBlock := NoOpBlock b; PubKeyMiner := PubKeyMiner b;
     Index := Index b; MinerInks := MinerInks b;
     CanvasInks := CanvasInks b; CanvasOperations := CanvasOperations b |}.

(** [generateNoOpBlock]: the new block holds the maps of the last block,
    and the account of [minerPubKey] is updated in that shared map.  The
    assignment to the account panics when that map is nil. *)
Definition generateNoOpBlock (fuel : nat) (g : Globals) (minerPubKey : string)
  : Outcome (Block * Globals) :=
  match last (blockChain g) with
  | None => Returned (generateFirstBlock g)
  | Some lastBlk =>
      let difficulty := difficultyOf g lastBlk in
      match calculateHash fuel lastBlk difficulty with
      | None => Exhausted
      | Some (lastBlkHash, _) =>
          let blk :=
            {| PrevHash := lastBlkHash;
               Nonce := 0;
               Ops := [];
               NoOpBlock := true;
               PubKeyMiner := getPubKeyInStr (myPrivKey g);
               Index := 1;
               MinerInks := MinerInks lastBlk;
               CanvasInks := CanvasInks lastBlk;
               CanvasOperations := CanvasOperations lastBlk |} in
          let oldMinerInks := inkMap g (MinerInks lastBlk) in
          let account :=
            match oldMinerInks !! minerPubKey with
            | Some myInkAccount =>
                {| inkMined :=
                     uint32 (inkMined myInkAccount
                             + InkPerNoOpBlock (settings g));
                   inkSpent := inkSpent myInkAccount;
                   inkRemain :=
                     uint32 (inkRemain myInkAccount
                             + InkPerNoOpBlock (settings g)) |}
            | None =>
                {| inkMined := InkPerNoOpBlock (settings g);
                   inkSpent := 0;
                   inkRemain := InkPerNoOpBlock (settings g) |}
            end in
          if negb (allocated (inkMaps g) (MinerInks lastBlk)) then Panicked
          else
            let g' :=
              set_inkMaps g
                (<[ MinerInks lastBlk := <[ minerPubKey := account ]> oldMinerInks ]>
                   (inkMaps g)) in
            match calculateHash fuel blk (PoWDifficultyNoOpBlock (settings g)) with
            | None => Exhausted
            | Some (_, currNonce) =>
                Returned (with_Nonce blk (uint32 (ParseUint currNonce 32)), g')
            end
      end
  end.

Definition mineNoOpBlocks (fuel : nat) (g : Globals) (minerPubKey : string)
  : Outcome Globals :=
  match generateNoOpBlock fuel g minerPubKey with
  | Returned (blk, g') =>
      Returned (set_blockChain g' (blockChain g' ++ [blk])%list)
  | Panicked => Panicked
  | Exhausted => Exhausted
  end.

(** One iteration of the loop of [main]: mine a block, then copy the
    [inkMined] of the account of [myPubKeyStr] in the last block into
    [currInkMined].  [myPubKeyStr] is the string of the key that [main]
    parsed from its arguments into its own local variable. *)
Definition main_iteration (fuel : nat) (g : Globals) (myPubKeyStr : string)
  : Outcome Globals :=
  match mineNoOpBlocks fuel g myPubKeyStr with
  | Returned g' =>
      match last (blockChain g') with
      | None => Panicked
      | Some lastBlk =>
          Returned (set_currInkMined g'
                      (inkMined (readInk g' (MinerInks lastBlk) myPubKeyStr)))
      end
  | Panicked => Panicked
  | Exhausted => Exhausted
  end.

(** *** Ink accounting over a chain *)

Definition shapeInkCost (shapeSVG : string) : Z := 30.

Fixpoint costOfOperations_from (sum : Z) (ops : list Operation) : Z :=
  match ops with
  | [] => sum
  | op :: rest =>
      costOfOperations_from (uint32 (sum + shapeInkCost (AppShape op))) rest
  end.

Definition costOfOperations (ops : list Operation) : Z :=
  costOfOperations_from 0 ops.

(** The loop of [totalInkSpentAndMinedByMiner], from running totals. *)
Fixpoint totalInk_from (g : Globals) (miner : string) (inkSpent inkMined : Z)
  (bc : list Block) : Z * Z :=
  match bc with
  | [] => (inkSpent, inkMined)
  | blk :: rest =>
      if String.eqb miner (PubKeyMiner blk) then
        let inkMined' :=
          if NoOpBlock blk
          then uint32 (inkMined + InkPerNoOpBlock (settings g))
          else uint32 (inkMined + InkPerOpBlock (settings g)) in
        let inkSpent' := uint32 (inkSpent + costOfOperations (Ops blk)) in
        totalInk_from g miner inkSpent' inkMined' rest
      else totalInk_from g miner inkSpent inkMined rest
  end.

Definition totalInkSpentAndMinedByMiner (g : Globals) (bc : list Block)
  (miner : string) : Z * Z :=
  totalInk_from g miner 0 0 bc.

Fixpoint contains (miners : list string) (miner : string) : bool :=
  match miners with
  | [] => false
  | m :: rest => if String.eqb miner m then true else contains rest miner
  end.

Fixpoint minersInBlockChain_from (miners : list string) (bc : list Block)
  : list string :=
  match bc with
  | [] => miners
  | blk :: rest =>
      if negb (contains miners (PubKeyMiner blk))
      then minersInBlockChain_from (miners ++ [PubKeyMiner blk])%list rest
      else minersInBlockChain_from miners rest
  end.

Definition minersInBlockChain (bc : list Block) : list string :=
  minersInBlockChain_from [] bc.

Definition validateSufficientInkMiner (g : Globals) (bc : list Block)
  (key : string) : bool :=
  let '(inkSpent, inkMined) := totalInkSpentAndMinedByMiner g bc key in
  inkSpent <=? inkMined.

Fixpoint validateSufficientInkAll_loop (g : Globals) (bc : list Block)
  (miners : list string) : bool :=
  match miners with
  | [] => true
  | miner :: rest =>
      if negb (validateSufficientInkMiner g bc miner) then false
      else validateSufficientInkAll_loop g bc rest
  end.

Definition validateSufficientInkAll (g : Globals) (bc : list Block) : bool :=
  validateSufficientInkAll_loop g bc (minersInBlockChain bc).

(** *** Block and chain validation *)

(** [validateBlockHashNonce]: [(val, currHash)]. *)
Definition validateBlockHashNonce (fuel : nat) (g : Globals) (b : Block)
  : option (bool * string) :=
  let difficulty := difficultyOf g b in
  if (1 <? Index b) && negb (hasNZeros (PrevHash b) difficulty)
  then Some (false, EmptyString)
  else
    match calculateHash fuel b difficulty with
    | None => None
    | Some (currHash, n) =>
        Some (String.eqb n (FormatInt (Nonce b)), currHash)
    end.

Fixpoint validateBlockOpSigs_loop (minerKey : string) (ops : list Operation)
  : bool :=
  match ops with
  | [] => true
  | op :: rest =>
      let ourOpSig := computeNonceSecretHash minerKey (AppShape op) in
      if negb (String.eqb ourOpSig (OpSig op)) then false
      else validateBlockOpSigs_loop minerKey rest
  end.

Definition validateBlockOpSigs (b : Block) : bool :=
  validateBlockOpSigs_loop (PubKeyMiner b) (Ops b).

(** The loop of [validateBlockChain]; [hashVal] is the hash computed for
    the block before (the empty string at the start). *)
Fixpoint validateBlockChain_from (fuel : nat) (g : Globals) (hashVal : string)
  (bc : list Block) : option bool :=
  match bc with
  | [] => Some true
  | b :: rest =>
      if (1 <? Index b) && negb (String.eqb hashVal (PrevHash b))
      then Some false
      else
        match validateBlockHashNonce fuel g b with
        | None => None
        | Some (boolValidNonce, hashVal') =>
            let boolValidOpSig := validateBlockOpSigs b in
            if negb boolValidNonce || negb boolValidOpSig then Some false
            else validateBlockChain_from fuel g hashVal' rest
        end
  end.

Definition validateBlockChain (fuel : nat) (g : Globals) (bc : list Block)
  : option bool :=
  validateBlockChain_from fuel g EmptyString bc.

(** [SendBlockchain]: the RPC by which a peer hands over its chain.  The
    maps of the received blocks have been decoded into the store before
    the handler runs; a map that came as nil is a reference that is not a
    position of the store. *)
Definition SendBlockchain (fuel : nat) (g : Globals) (bc : list Block)
  : option Globals :=
  if isSentChainLonger g bc then
    if validateSufficientInkAll g bc then
      match validateBlockChain fuel g bc with
      | None => None
      | Some true => Some (set_blockChain g bc)
      | Some false => Some g
      end
    else Some g
  else Some g.

(** *** RPC handlers for the art node *)

Definition minerInkRemain (g : Globals) : Z :=
  match blockChain g with
  | [] => 0
  | _ => currInkMined g
  end.

(** What [SvgHelper.AddShapeToMap] hands back: the ink spent, the error,
    and the contents of the map it was given once it returns. *)
Definition SvgResult : Type := Z * option Error * gmap string MapPoint.

(** The function [SvgHelper.AddShapeToMap], which is not among the
    sources, is an argument of the model of its caller. *)
Definition SvgHelper : Type :=
  string -> string -> string -> Z -> gmap string MapPoint -> SvgResult.

(** Where [AddShape] stands after the code before its waiting loop: it
    returned an error, or it appended its block and polls until the chain
    has an index greater than [lastOne + ValidateNum], then returns the
    reply with a nil error.  The assignments to the ink account and to
    the operation list panic when the map of the last block is nil.  (A
    helper that returns has not written to a nil canvas map, whose
    contents stay empty.) *)
Inductive AddShapeResult : Type :=
| AddShapeError (e : Error)
| AddShapeWaits (lastOne : Z) (reply : AddShapeReply).

Definition AddShape (fuel : nat) (AddShapeToMap : SvgHelper) (g : Globals)
  (args : AddShapeStruct) : Outcome (Globals * AddShapeResult) :=
  let svgStr :=
    String.append "<path d="
      (String.append dquote
         (String.append (ShapeSvgString args)
            (String.append dquote
               (String.append " stroke="
                  (String.append dquote
                     (String.append (Stroke args)
                        (String.append dquote
                           (String.append " fill="
                              (String.append dquote
                                 (String.append (Fill args)
                                    (String.append dquote "/>"))))))))))) in
  let remainInk := minerInkRemain g in
  match last (blockChain g) with
  | None => Panicked
  | Some lastBlk =>
      let previousMap := CanvasInks lastBlk in
      let '(spentInk, err, canvas') :=
        AddShapeToMap (ShapeSvgString args) (ArtNodePK args) (Fill args)
          remainInk (canvasMap g previousMap) in
      let g1 := set_canvasMaps g (<[ previousMap := canvas' ]> (canvasMaps g)) in
      let currentInkRemain := int64 (remainInk - spentInk) in
      match err with
      | Some e => Returned (g1, AddShapeError e)
      | None =>
          let pkStr := getPubKeyInStr (myPrivKey g1) in
          let shapeHash := computeNonceSecretHash svgStr pkStr in
          let newOp :=
            {| AppShape := svgStr; OpSig := shapeHash;
               PubKeyArtNode := ArtNodePK args |} in
          let lastOne := Z.of_nat (List.length (blockChain g1)) - 1 in
          match calculateHash fuel lastBlk (PoWDifficultyOpBlock (settings g1)) with
          | None => Exhausted
          | Some (preHash, _) =>
              let newOps := (Ops lastBlk ++ [newOp])%list in
              let mInks := MinerInks lastBlk in
              let incAcc := readInk g1 mInks (myKeyPairInString g1) in
              let '(inkSpent0, inkMined0) :=
                totalInkSpentAndMinedByMiner g1 (blockChain g1) pkStr in
              let incAcc' :=
                {| inkMined := inkMined0;
                   inkSpent := uint32 (uint32 spentInk + inkSpent0);
                   inkRemain := uint32 currentInkRemain |} in
              if negb (allocated (inkMaps g1) mInks) then Panicked
              else
              let g2 :=
                set_inkMaps g1
                  (<[ mInks := <[ myKeyPairInString g1 := incAcc' ]> (inkMap g1 mInks) ]>
                     (inkMaps g1)) in
              let canvOps := CanvasOperations lastBlk in
              let myOps := readOps g2 canvOps (myKeyPairInString g2) in
              let svgAndHash :=
                String.append svgStr (String.append ":" shapeHash) in
              if negb (allocated (opsMaps g2) canvOps) then Panicked
              else
              let g3 :=
                set_opsMaps g2
                  (<[ canvOps :=
                        <[ myKeyPairInString g2 := (myOps ++ [svgAndHash])%list ]>
                          (opsMap g2 canvOps) ]>
                     (opsMaps g2)) in
              let newBlock :=
                {| PrevHash := preHash; Nonce := 0; Ops := newOps;
                   NoOpBlock := false; PubKeyMiner := myKeyPairInString g3;
                   Index := lastOne + 1; MinerInks := mInks;
                   CanvasInks := previousMap; CanvasOperations := canvOps |} in
              match calculateHash fuel newBlock (PoWDifficultyOpBlock (settings g3)) with
              | None => Exhausted
              | Some (blockHash, nonce) =>
                  let newBlock' := with_Nonce newBlock (uint32 (ParseUint nonce 32)) in
                  Returned
                    (set_blockChain g3 (blockChain g3 ++ [newBlock'])%list,
                     AddShapeWaits lastOne
                       {| ShapeHash := shapeHash; BlockHash := blockHash;
                          InkRemaining := uint32 currentInkRemain |})
              end
          end
      end
  end.

(** The exit test of the waiting loop of [AddShape]. *)
Definition AddShape_wait_over (g : Globals) (lastOne validateNum : Z) : bool :=
  lastOne + validateNum <? Z.of_nat (List.length (blockChain g)) - 1.

(** The loop of [DeleteShape] over the operations of the last block. *)
Fixpoint DeleteShape_scan (g : Globals) (lastBlk : Block) (args : DelShapeArgs)
  (operations : list Operation) : Z + Error :=
  match operations with
  | [] => inr (InvalidShapeHashError (shapeHash args))
  | op :: rest =>
      if String.eqb (OpSig op) (shapeHash args) then
        if String.eqb (DelArtNodePK args) (PubKeyArtNode op) then
          inl (inkRemain (readInk g (MinerInks lastBlk) (myKeyPairInString g)))
        else inr (ShapeOwnerError (shapeHash args))
      else DeleteShape_scan g lastBlk args rest
  end.

(** [DeleteShape]: [inl ink] is a nil error with [*inkRemaining = ink]. *)
Definition DeleteShape (g : Globals) (args : DelShapeArgs) : Z + Error :=
  match last (blockChain g) with
  | None => inr (InvalidShapeHashError (shapeHash args))
  | Some lastBlk => DeleteShape_scan g lastBlk args (Ops lastBlk)
  end.

(** The loop that stores [ops[j].OpSig] at index [j] of the slice that the
    reply pointer refers to, for [j] from 0 to [len(ops) - 1]; here from
    index [j] on.  [None] is an index out of range. *)
Fixpoint writeShapeHashes (ops : list Operation) (j : nat)
  (shapeHashes : list string) : option (list string) :=
  match ops with
  | [] => Some shapeHashes
  | op :: rest =>
      if (j <? List.length shapeHashes)%nat
      then writeShapeHashes rest (S j) (<[ j := OpSig op ]> shapeHashes)
      else None
  end.

Definition GetShapes_write (ops : list Operation) (shapeHashes : list string)
  : Outcome (list string + Error) :=
  match writeShapeHashes ops 0 shapeHashes with
  | Some written => Returned (inl written)
  | None => Panicked
  end.

(** The second loop of [GetShapes], [i] running from [n - 1] down to 0. *)
Fixpoint GetShapes_scan (chain : list Block) (n : nat) (blockHash : string)
  (shapeHashes : list string) : Outcome (list string + Error) :=
  match n with
  | O => Returned (inr (InvalidBlockHashError blockHash))
  | S i =>
      match chain !! i with
      | None => Panicked
      | Some b =>
          if String.eqb (PrevHash b) blockHash then
            match i with
            | O => Panicked
            | S i' =>
                match chain !! i' with
                | None => Panicked
                | Some parent => GetShapes_write (Ops parent) shapeHashes
                end
            end
          else GetShapes_scan chain i blockHash shapeHashes
      end
  end.

(** [GetShapes]: [shapeHashes] is the slice behind the reply pointer;
    [inl written] is a nil error with the slice as it was left. *)
Definition GetShapes (fuel : nat) (g : Globals) (blockHash : string)
  (shapeHashes : list string) : Outcome (list string + Error) :=
  match last (blockChain g) with
  | None => Returned (inr (InvalidBlockHashError blockHash))
  | Some lastBlk =>
      match calculateHash fuel lastBlk (difficultyOf g lastBlk) with
      | None => Exhausted
      | Some (lastblockHash, _) =>
          if String.eqb lastblockHash blockHash
          then GetShapes_write (Ops lastBlk) shapeHashes
          else GetShapes_scan (blockChain g) (List.length (blockChain g))
                 blockHash shapeHashes
      end
  end.

(** *** Further RPC handlers *)

(** [GetInk]: [inl ink] is a nil error with [*reply = ink]. *)
Definition GetInk (g : Globals) (minerprivatekey : string) : Z + Error :=
  if String.eqb (myKeyPairInString g) minerprivatekey
  then inl (minerInkRemain g)
  else inr (InvalidMinerPKError minerprivatekey).

(** The loop of [GetSvgString] over the operations of the last block. *)
Fixpoint GetSvgString_scan (operations : list Operation) (shapeHash : string)
  : string + Error :=
  match operations with
  | [] => inr (InvalidShapeHashError shapeHash)
  | op :: rest =>
      if String.eqb (OpSig op) shapeHash then inl (AppShape op)
      else GetSvgString_scan rest shapeHash
  end.

(** [GetSvgString] indexes the chain at [len(blockChain) - 1] without a
    test for the empty chain. *)
Definition GetSvgString (g : Globals) (shapeHash : string)
  : Outcome (string + Error) :=
  match last (blockChain g) with
  | None => Panicked
  | Some lastBlk => Returned (GetSvgString_scan (Ops lastBlk) shapeHash)
  end.

(** The loop of [GetChildren], [i] running from [n - 1] down to 0. *)
Fixpoint GetChildren_scan (fuel : nat) (g : Globals) (n : nat)
  (blockHash : string) : Outcome (list string + Error) :=
  match n with
  | O => Returned (inr (InvalidBlockHashError blockHash))
  | S i =>
      match blockChain g !! i with
      | None => Panicked
      | Some b =>
          if String.eqb (PrevHash b) blockHash then
            match calculateHash fuel b (difficultyOf g b) with
            | None => Exhausted
            | Some (mblockHash, _) => Returned (inl [mblockHash])
            end
          else GetChildren_scan fuel g i blockHash
      end
  end.

(** [GetChildren]: [inl hashes] is a nil error with
    [*blockHashes = hashes]. *)
Definition GetChildren (fuel : nat) (g : Globals) (blockHash : string)
  : Outcome (list string + Error) :=
  match blockChain g with
  | [] => Returned (inr (InvalidBlockHashError blockHash))
  | _ =>
      GetChildren_scan fuel g (List.length (blockChain g)) blockHash
  end.

Record CloseCanvReply := {
  ReplyOps : list Operation;
  replyInkRemaining : Z
}.

(** [CloseCanvas]; its error is always nil. *)
Definition CloseCanvas (g : Globals) : CloseCanvReply :=
  match last (blockChain g) with
  | None => {| ReplyOps := []; replyInkRemaining := 0 |}
  | Some lastBlk =>
      {| ReplyOps := Ops lastBlk;
         replyInkRemaining :=
           inkRemain (readInk g (MinerInks lastBlk) (myKeyPairInString g)) |}
  end.

End Miner.

(** ** blockartlib/blockartlib.go *)

Module BlockArtLib.

Record AddShapeStruct := {
  ValidateNum : Z;
  SType : Z;
  ShapeSvgString : string;
  Fill : string;
  Stroke : string;
  ArtNodePK : string
}.

Record AddShapeReply := {
  ShapeHash : string;
  BlockHash : string;
  InkRemaining : Z
}.

Record DelShapeArgs := {
  validateNum : Z;
  shapeHash : string;
  DelArtNodePK : string
}.

(** The error types of the library; [RpcError] is an error that
    [rpc.Client.Call] returned, with its text: the text of the error of
    the remote handler, or a failure of the connection. *)
Inductive Error : Type :=
| DisconnectedError (e : string)
| InsufficientInkError (e : Z)
| InvalidShapeSvgStringError (e : string)
| ShapeSvgStringTooLongError (e : string)
| InvalidShapeHashError (e : string)
| ShapeOwnerError (e : string)
| OutOfBoundsError
| ShapeOverlapError (e : string)
| InvalidBlockHashError (e : string)
| InvalidMinerPKError (e : string)
| RpcError (msg : string).

(** The requests that the library puts on the connection. *)
Inductive Request : Type :=
| InkMinerRPC_AddShape (args : AddShapeStruct)
| InkMinerRPC_DeleteShape (args : DelShapeArgs).

(** [*rpc.Client]: for each method, what [Call] leaves in the reply
    variable (its zero value when the handler failed) and the text of the
    error it returns. *)
Record Client := {
  Call_AddShape : AddShapeStruct -> AddShapeReply * option string;
  Call_DeleteShape : DelShapeArgs -> Z * option string
}.

(** [MyCanvas]; the two keys are kept as the strings that
    [getPrivKeyInStr] makes of them. *)
Record MyCanvas := {
  conn : Client;
  minerPrivKey : string;
  artnodePrivKey : string
}.

(** What an API call returns, and the requests it sent. *)
Record AddShapeReturn := {
  ret_shapeHash : string;
  ret_blockHash : string;
  ret_inkRemaining : Z;
  ret_err : option Error;
  ret_sent : list Request
}.

Record DeleteShapeReturn := {
  del_inkRemaining : Z;
  del_err : option Error;
  del_sent : list Request
}.

Definition AddShape (c : MyCanvas) (validateNum : Z) (shapeType : Z)
  (shapeSvgString fill stroke : string) : AddShapeReturn :=
  if (128 <? String.length shapeSvgString)%nat then
    {| ret_shapeHash := EmptyString; ret_blockHash := EmptyString;
       ret_inkRemaining := 0;
       ret_err := Some (ShapeSvgStringTooLongError shapeSvgString);
       ret_sent := [] |}
  else if String.eqb stroke fill && String.eqb fill "transparent" then
    {| ret_shapeHash := EmptyString; ret_blockHash := EmptyString;
       ret_inkRemaining := 0;
       ret_err :=
         Some (InvalidShapeSvgStringError
                 "fill and stroke can't both be transparent");
       ret_sent := [] |}
  else
    let artPKStr := artnodePrivKey c in
    let args :=
      {| ValidateNum := 1; SType := shapeType;
         ShapeSvgString := shapeSvgString; Fill := fill; Stroke := stroke;
         ArtNodePK := artPKStr |} in
    let '(reply, err) := Call_AddShape (conn c) args in
    {| ret_shapeHash := EmptyString; ret_blockHash := EmptyString;
       ret_inkRemaining := 0;
       ret_err := option_map RpcError err;
       ret_sent := [InkMinerRPC_AddShape args] |}.

Definition DeleteShape (c : MyCanvas) (validateNum : Z) (shapeHash : string)
  : DeleteShapeReturn :=
  let args :=
    {| validateNum := 0; shapeHash := EmptyString;
       DelArtNodePK := EmptyString |} in
  let '(inkRemaining, err) := Call_DeleteShape (conn c) args in
  {| del_inkRemaining := inkRemaining;
     del_err := option_map RpcError err;
     del_sent := [InkMinerRPC_DeleteShape args] |}.

(** The characters that the pattern of [validSvgCommand] accepts when it
    is matched against a string of one byte: a space, one of the ten
    command letters, or a digit. *)
Definition svgCommandChar (a : ascii) : bool :=
  existsb (Ascii.eqb a) (list_ascii_of_string " MmLlHhVvZz0123456789").

(** The loop of [validSvgCommand] over the bytes of [rest]; [c] is the
    whole string, which the error carries. *)
Fixpoint validSvgCommand_from (c rest : string) : option Error :=
  match rest with
  | EmptyString => None
  | String a rest' =>
      if svgCommandChar a then validSvgCommand_from c rest'
      else Some (InvalidShapeSvgStringError c)
  end.

Definition validSvgCommand (c : string) : option Error :=
  validSvgCommand_from c c.

End BlockArtLib.

(** ** The RPC link between the library and the miner

    [net/rpc] hands the decoded arguments to the handler of the miner.  When
    the handler returns an error, the caller gets the text of that error
    and its reply variable is not written. *)

Definition wire_DelShapeArgs (a : BlockArtLib.DelShapeArgs) : Miner.DelShapeArgs :=
  {| Miner.validateNum := BlockArtLib.validateNum a;
     Miner.shapeHash := BlockArtLib.shapeHash a;
     Miner.DelArtNodePK := BlockArtLib.DelArtNodePK a |}.

Definition serve_DeleteShape (g : Miner.Globals) (a : BlockArtLib.DelShapeArgs)
  : Z * option string :=
  match Miner.DeleteShape g (wire_DelShapeArgs a) with
  | inl ink => (ink, None)
  | inr e => (0, Some (Miner.Error_string e))
  end.

Definition wire_AddShapeStruct (a : BlockArtLib.AddShapeStruct) : Miner.AddShapeStruct :=
  {| Miner.ValidateNum := BlockArtLib.ValidateNum a;
     Miner.SType := BlockArtLib.SType a;
     Miner.ShapeSvgString := BlockArtLib.ShapeSvgString a;
     Miner.Fill := BlockArtLib.Fill a;
     Miner.Stroke := BlockArtLib.Stroke a;
     Miner.ArtNodePK := BlockArtLib.ArtNodePK a |}.

Definition wire_AddShapeReply (r : Miner.AddShapeReply) : BlockArtLib.AddShapeReply :=
  {| BlockArtLib.ShapeHash := Miner.ShapeHash r;
     BlockArtLib.BlockHash := Miner.BlockHash r;
     BlockArtLib.InkRemaining := Miner.InkRemaining r |}.

Definition zeroAddShapeReply : BlockArtLib.AddShapeReply :=
  {| BlockArtLib.ShapeHash := EmptyString;
     BlockArtLib.BlockHash := EmptyString;
     BlockArtLib.InkRemaining := 0 |}.

(** What a call of [InkMinerRPC.AddShape] brings back from a miner in state
    [g] once the waiting loop of the handler has ended.  A handler that does
    not return takes the connection down. *)
Definition serve_AddShape (fuel : nat) (helper : Miner.SvgHelper)
  (g : Miner.Globals) (a : BlockArtLib.AddShapeStruct)
  : BlockArtLib.AddShapeReply * option string :=
  match Miner.AddShape fuel helper g (wire_AddShapeStruct a) with
  | Miner.Returned (_, Miner.AddShapeWaits _ reply) =>
      (wire_AddShapeReply reply, None)
  | Miner.Returned (_, Miner.AddShapeError e) =>
      (zeroAddShapeReply, Some (Miner.Error_string e))
  | Miner.Panicked | Miner.Exhausted =>
      (zeroAddShapeReply, Some "unexpected EOF")
  end.

(** A canvas whose connection leads to a miner in state [g]. *)
Definition canvasOn (fuel : nat) (helper : Miner.SvgHelper) (g : Miner.Globals)
  (minerKey artKey : string) : BlockArtLib.MyCanvas :=
  {| BlockArtLib.conn :=
       {| BlockArtLib.Call_AddShape := serve_AddShape fuel helper g;
          BlockArtLib.Call_DeleteShape := serve_DeleteShape g |};
     BlockArtLib.minerPrivKey := minerKey;
     BlockArtLib.artnodePrivKey := artKey |}.

(** ** Notions in which the properties are stated *)

Import Miner.

(** The hash of a block: the MD5, in hexadecimal, of its string followed by
    its stored nonce in decimal. *)
Definition nonceHash (b : Block) (k : Z) : string :=
  computeNonceSecretHash (blkToString b) (FormatInt k).

Definition blockHash (b : Block) : string := nonceHash b (Nonce b).

(** [hash] ends in at least [n] characters [0]. *)
Definition trailingZeros (hash : string) (n : Z) : Prop :=
  exists p, hash = String.append p (Repeat "0" (Z.to_nat n)).

(** The counter of the nonce search after [m] increments from [j]. *)
Definition counter (m : nat) (j : Z) : Z :=
  Nat.iter m (fun x => int64 (x + 1)) j.

(** The range of the Go type of the field [Nonce]. *)
Definition nonceInRange (b : Block) : Prop := 0 <= Nonce b < 2 ^ 32.

(** *** What validation of a received chain checks *)

(** Proof of work: the stored nonce is the first one, counting from 0, at
    which the hash of the block ends in the zeros that the difficulty of
    the block asks for; a block of index above 1 also names a parent hash
    that ends in that many zeros. *)
Definition proofOfWork (g : Globals) (b : Block) : Prop :=
  (1 < Index b -> trailingZeros (PrevHash b) (difficultyOf g b))
  /\ trailingZeros (blockHash b) (difficultyOf g b)
  /\ forall k, 0 <= k < Nonce b ->
       ~ trailingZeros (nonceHash b k) (difficultyOf g b).

(** Operation signatures: each is the hash of the producer key followed by
    the shape. *)
Definition opSignatures (b : Block) : Prop :=
  Forall
    (fun op => OpSig op = computeNonceSecretHash (PubKeyMiner b) (AppShape op))
    (Ops b).

(** Parent links: a block of index above 1 names the hash of the block
    before it ([hashVal] for the first block). *)
Fixpoint parentLinks (hashVal : string) (bc : list Block) : Prop :=
  match bc with
  | [] => True
  | b :: rest =>
      (1 < Index b -> PrevHash b = hashVal) /\ parentLinks (blockHash b) rest
  end.

Definition sumZ (l : list Z) : Z := fold_right Z.add 0 l.

Definition producedBy (miner : string) (b : Block) : bool :=
  String.eqb miner (PubKeyMiner b).

Definition reward (g : Globals) (b : Block) : Z :=
  if NoOpBlock b then InkPerNoOpBlock (settings g)
  else InkPerOpBlock (settings g).

(** Ink mined and spent by a miner over a chain, in 32-bit arithmetic. *)
Definition inkMinedBy (g : Globals) (bc : list Block) (miner : string) : Z :=
  uint32 (sumZ (map (reward g) (List.filter (producedBy miner) bc))).

Definition inkSpentBy (bc : list Block) (miner : string) : Z :=
  uint32
    (sumZ (map (fun b => 30 * Z.of_nat (List.length (Ops b)))
             (List.filter (producedBy miner) bc))).

Definition minedAtLeastSpent (g : Globals) (bc : list Block) : Prop :=
  forall miner, In miner (map PubKeyMiner bc) ->
    inkSpentBy bc miner <= inkMinedBy g bc miner.

(** A block passes the two checks of one round of the loop of
    [validateBlockChain], within [fuel] steps. *)
Definition blockChecked (fuel : nat) (g : Globals) (b : Block) : Prop :=
  validateBlockHashNonce fuel g b = Some (true, blockHash b)
  /\ validateBlockOpSigs b = true.

Definition chainValid (g : Globals) (bc : list Block) : Prop :=
  parentLinks EmptyString bc
  /\ Forall (proofOfWork g) bc
  /\ Forall opSignatures bc
  /\ minedAtLeastSpent g bc.

Definition strictlyLonger (g : Globals) (bc : list Block) : Prop :=
  (List.length (blockChain g) < List.length bc)%nat.

(** The difficulty that goes with the operations a block carries. *)
Definition difficultyByOps (g : Globals) (b : Block) : Z :=
  if isNoOpBlock b then PoWDifficultyNoOpBlock (settings g)
  else PoWDifficultyOpBlock (settings g).

(** *** Validation as the specification words it

    These three definitions follow the words of the specification, not
    the code: a chain passes validation when each block after the first
    names the hash of the block before it, the hash of each block ends in
    the zeros of the difficulty that goes with its operations, each
    operation is signed, and each producer has mined at least as much ink
    as it has spent. *)
Fixpoint namesParentFrom (parent : Block) (bc : list Block) : Prop :=
  match bc with
  | [] => True
  | b :: rest => PrevHash b = blockHash parent /\ namesParentFrom b rest
  end.

Definition everyBlockNamesParent (bc : list Block) : Prop :=
  match bc with
  | [] => True
  | b :: rest => namesParentFrom b rest
  end.

Definition chainValidAsWorded (g : Globals) (bc : list Block) : Prop :=
  everyBlockNamesParent bc
  /\ Forall (fun b => trailingZeros (blockHash b) (difficultyByOps g b)) bc
  /\ Forall opSignatures bc
  /\ minedAtLeastSpent g bc.

(** *** How a block comes onto the local chain *)

Inductive Origin : Type := MinedHere | AddedHere | FromPeer.

(** [accepted fuel o g blk g']: from [g], the operation of kind [o] put
    [blk] on the chain of [g'].  A block is mined on a chain that is not
    empty, added by [AddShape], or a member of a received chain that
    replaced the local one. *)
Inductive accepted (fuel : nat) : Origin -> Globals -> Block -> Globals -> Prop :=
| accepted_mined g minerPubKey blk g' :
    blockChain g <> [] ->
    generateNoOpBlock fuel g minerPubKey = Returned (blk, g') ->
    accepted fuel MinedHere g blk
      (set_blockChain g' (blockChain g' ++ [blk])%list)
| accepted_added helper g args g' lastOne reply blk :
    AddShape fuel helper g args = Returned (g', AddShapeWaits lastOne reply) ->
    last (blockChain g') = Some blk ->
    accepted fuel AddedHere g blk g'
| accepted_received g bc g' blk :
    SendBlockchain fuel g bc = Some g' ->
    blockChain g' <> blockChain g ->
    In blk bc ->
    accepted fuel FromPeer g blk g'.

(** *** The block serialization as the specification words it *)

(** The record of one operation. *)
Definition opRecord (op : Operation) : string :=
  String.append (AppShape op) (String.append (OpSig op) (PubKeyArtNode op)).

(** Parent hash, operation records in order, producer key, depth and nonce
    as little-endian 32-bit integers. *)
Definition specSerialization (b : Block) : list Z :=
  (bytes_of_string (PrevHash b)
   ++ bytes_of_string (String.concat EmptyString (map opRecord (Ops b)))
   ++ bytes_of_string (PubKeyMiner b)
   ++ MD5.bytes_le 4 (Index b)
   ++ MD5.bytes_le 4 (Nonce b))%list.

Definition specBlockHash (b : Block) : string :=
  hex_EncodeToString (MD5.sum (specSerialization b)).

(** The serialization that the code hashes: parent hash, operation records
    in order, producer key, the index as the UTF-8 bytes of the code point
    of that number, the nonce in decimal digits. *)
Definition codeSerialization (b : Block) (nonce : Z) : list Z :=
  (bytes_of_string (PrevHash b)
   ++ bytes_of_string (String.concat EmptyString (map opRecord (Ops b)))
   ++ bytes_of_string (PubKeyMiner b)
   ++ bytes_of_string (string_of_int (Index b))
   ++ bytes_of_string (FormatInt nonce))%list.

(** *** The block that [GetShapes] reads *)

(** [selects g lastHash askedHash b]: with [lastHash] the hash computed for
    the last block, [b] is the block whose operations [GetShapes] copies
    when asked for [askedHash]: the last block when [askedHash] is its
    hash, and otherwise the block just before the highest block whose
    [PrevHash] is [askedHash]. *)
Inductive selects (g : Globals) (lastHash askedHash : string) : Block -> Prop :=
| selects_last b :
    last (blockChain g) = Some b ->
    lastHash = askedHash ->
    selects g lastHash askedHash b
| selects_parent i child b :
    lastHash <> askedHash ->
    blockChain g !! S i = Some child ->
    PrevHash child = askedHash ->
    (forall k c, (S i < k)%nat -> blockChain g !! k = Some c ->
       PrevHash c <> askedHash) ->
    blockChain g !! i = Some b ->
    selects g lastHash askedHash b.

(** *** The delete request *)

(** The zero value of [DelShapeArgs]. *)
Definition zeroDelShapeArgs : BlockArtLib.DelShapeArgs :=
  {| BlockArtLib.validateNum := 0;
     BlockArtLib.shapeHash := EmptyString;
     BlockArtLib.DelArtNodePK := EmptyString |}.

(** *** Ink accounts *)

(** The invariant of an ink account. *)
Definition accountBalanced (a : InkAccount) : Prop :=
  inkRemain a = inkMined a - inkSpent a /\ inkSpent a <= inkMined a.

(** The ink accounts that a block shows: the contents of its map. *)
Definition accountsOf (g : Globals) (b : Block) : gmap string InkAccount :=
  inkMap g (MinerInks b).

Definition canvasOperationsOf (g : Globals) (b : Block)
  : gmap string (list string) :=
  opsMap g (CanvasOperations b).

(** ** Concrete runs *)

Module Scenario.

Definition netSettings (difficultyOp difficultyNoOp inkOp inkNoOp : Z)
  : MinerNetSettings :=
  {| GenesisBlockHash := "83218ac34c1834c26781fe4bde918ee4";
     MinNumMinerConnections := 1;
     InkPerOpBlock := inkOp;
     InkPerNoOpBlock := inkNoOp;
     HeartBeat := 3000;
     PoWDifficultyOpBlock := difficultyOp;
     PoWDifficultyNoOpBlock := difficultyNoOp;
     canvasSettings := {| CanvasXMax := 1000; CanvasYMax := 1000 |} |}.

(** The miner as it starts: no block, and the package-level [myPrivKey]
    at its zero value ([main] parses the key into a variable of its own). *)
Definition start (s : MinerNetSettings) : Globals :=
  {| blockChain := [];
     settings := s;
     myPrivKey := {| X := None; Y := None |};
     myKeyPairInString := "3081a40201010430";
     currInkMined := 0;
     inkMaps := [];
     canvasMaps := [];
     opsMaps := [] |}.

(** The public key that [main] parsed, and its string. *)
Definition localKey : PublicKey := {| X := Some 8675309; Y := Some 31337 |}.

Definition myPubKeyStr : string := getPubKeyInStr localKey.

(** [n] iterations of the loop of [main]. *)
Definition mine (fuel n : nat) (g : Globals) : Outcome Globals :=
  Nat.iter n
    (fun og => match og with
               | Returned g' => main_iteration fuel g' myPubKeyStr
               | Panicked => Panicked
               | Exhausted => Exhausted
               end)
    (Returned g).

(** A helper that charges [cost] for any shape and leaves the map alone. *)
Definition flatCost (cost : Z) : SvgHelper :=
  fun _ _ _ _ canvas => (cost, None, canvas).

Definition triangle (artKey : string) : AddShapeStruct :=
  {| Miner.ValidateNum := 1; Miner.SType := 0;
     Miner.ShapeSvgString := "M 0 0 l 10 0 l 0 10 z";
     Miner.Fill := "filled"; Miner.Stroke := "red";
     Miner.ArtNodePK := artKey |}.

(** Difficulty 0, ten units of ink for each block. *)
Definition easy : MinerNetSettings := netSettings 0 0 10 10.

(** Difficulty 1 for both kinds of block. *)
Definition hard : MinerNetSettings := netSettings 1 1 50 50.

(** Difficulty 1 for blocks with operations, 0 for blocks without. *)
Definition mixed : MinerNetSettings := netSettings 1 0 50 50.

Definition afterBlocks (s : MinerNetSettings) (n : nat) : Globals :=
  returnedOr (start s) (mine 64 n (start s)).

(** The state once [AddShape] has appended its block. *)
Definition afterShape (cost : Z) (artKey : string) (g : Globals) : Globals :=
  match AddShape 64 (flatCost cost) g (triangle artKey) with
  | Returned (g', _) => g'
  | _ => g
  end.

(** A run in which the key string that [main] passes is the one that the
    package-level key prints as: one full iteration, then a second block
    mined while [currInkMined] has not been refreshed yet. *)
Definition sameKeyOnce : Globals :=
  returnedOr (start easy) (main_iteration 64 (start easy) "<nil><nil>").

Definition sameKeyStale : Globals :=
  returnedOr sameKeyOnce (mineNoOpBlocks 64 sameKeyOnce "<nil><nil>").

Definition firstBlock (g : Globals) : Block :=
  default (fst (generateFirstBlock g)) (head (blockChain g)).

Definition lastBlock (g : Globals) : Block :=
  default (fst (generateFirstBlock g)) (last (blockChain g)).

(** A chain that a peer sends: one block, flagged as a no-op block, that
    carries an operation signed as validation expects. *)
Definition peerOp : Operation :=
  {| AppShape := "<path d=M 0 0 l 5 0/>";
     OpSig := computeNonceSecretHash "peer" "<path d=M 0 0 l 5 0/>";
     PubKeyArtNode := "art" |}.

Definition peerBlock : Block :=
  {| PrevHash := "83218ac34c1834c26781fe4bde918ee4";
     Nonce := 0;
     Ops := [peerOp];
     NoOpBlock := true;
     PubKeyMiner := "peer";
     Index := 1;
     MinerInks := 0%nat; CanvasInks := 0%nat; CanvasOperations := 0%nat |}.

(** A chain of two blocks as validation expects them, at difficulty 1. *)
Definition goodFirst : Block :=
  {| PrevHash := "83218ac34c1834c26781fe4bde918ee4";
     Nonce := 5; Ops := []; NoOpBlock := true; PubKeyMiner := "peer";
     Index := 1; MinerInks := 0%nat; CanvasInks := 0%nat;
     CanvasOperations := 0%nat |}.

Definition goodSecond : Block :=
  {| PrevHash := "ab7543a835d7df22105355b3560ba720";
     Nonce := 5; Ops := [peerOp]; NoOpBlock := false; PubKeyMiner := "peer";
     Index := 2; MinerInks := 0%nat; CanvasInks := 0%nat;
     CanvasOperations := 0%nat |}.

Definition goodChain : list Block := [goodFirst; goodSecond].

(** Path strings of 128 and of 129 bytes. *)
Definition path128 : string := Repeat "M 0 0 L " 16.

Definition path129 : string := String.append path128 "0".

End Scenario.

(** *** A run that adds a shape *)

(** Two blocks are mined, then [AddShape] appends its block for a shape
    that costs 5, with the reply below; then one more block is mined. *)
Definition shapeAdded : Globals :=
  Scenario.afterShape 5 "art" (Scenario.afterBlocks Scenario.easy 2).

Definition shapeReply : AddShapeReply :=
  {| ShapeHash := "e75e711fdfb90e11bf778e5a334126bf";
     BlockHash := "438b067fce96a11d2ac1d5b34979eebf";
     InkRemaining := 5 |}.

Definition shapeConfirmed : Globals :=
  returnedOr shapeAdded (mineNoOpBlocks 64 shapeAdded Scenario.myPubKeyStr).

(** ** Tactics *)

Ltac by_evaluation := vm_compute; reflexivity.

(** Splits a conjunction into its parts. *)
Ltac conjuncts := intros; repeat match goal with |- _ /\ _ => split end.

(** Case analysis on the first nonce search that the goal mentions. *)
Ltac case_search h n E :=
  match goal with
  | |- context [calculateHash ?fuel ?b ?d] =>
      destruct (calculateHash fuel b d) as [[h n]|] eqn:E; [| discriminate]
  end.

(** * Properties *)

(** ** The model of MD5 on the test vectors of RFC 1321 *)

Example md5_rfc1321_vectors :
  hex_EncodeToString (MD5.sum (bytes_of_string ""))
  = "d41d8cd98f00b204e9800998ecf8427e"
  /\ hex_EncodeToString (MD5.sum (bytes_of_string "abc"))
     = "900150983cd24fb0d6963f7d28e17f72"
  /\ hex_EncodeToString (MD5.sum (bytes_of_string "message digest"))
     = "f96b697d7cb7938d525a2f31aaf161d0".
Proof. conjuncts; by_evaluation. Qed.

(** ** Strings and numbers *)

Lemma append_cons (c : ascii) (s t : string) :
  String.append (String c s) t = String c (String.append s t).
Proof. reflexivity. Qed.

Lemma length_append (s t : string) :
  String.length (String.append s t) = (String.length s + String.length t)%nat.
Proof. induction s as [|c s IH]; simpl; [reflexivity | now rewrite IH]. Qed.

Lemma append_assoc (s t u : string) :
  String.append (String.append s t) u = String.append s (String.append t u).
Proof.
  induction s as [|c s IH]; [reflexivity |].
  rewrite !append_cons. f_equal. exact IH.
Qed.

Lemma append_nil_r (s : string) : String.append s EmptyString = s.
Proof.
  induction s as [|c s IH]; [reflexivity |].
  rewrite append_cons. f_equal. exact IH.
Qed.

Lemma substring_all (s : string) : substring 0 (String.length s) s = s.
Proof. induction s as [|c s IH]; simpl; [reflexivity | now rewrite IH]. Qed.

Lemma substring_append_r (p s : string) (m : nat) :
  substring (String.length p) m (String.append p s) = substring 0 m s.
Proof.
  induction p as [|c p IH]; [reflexivity |].
  rewrite append_cons. simpl. exact IH.
Qed.

Lemma substring_split (s : string) (n : nat) :
  (n <= String.length s)%nat ->
  s = String.append (substring 0 n s) (substring n (String.length s - n) s).
Proof.
  revert n; induction s as [|c s IH]; intros n Hn; simpl in *.
  - destruct n; reflexivity.
  - destruct n as [|n]; simpl.
    + now rewrite substring_all.
    + rewrite append_cons. f_equal. apply IH. lia.
Qed.

(** [strings.HasSuffix] decides whether a string ends in another. *)
Lemma HasSuffix_spec (s suffix : string) :
  HasSuffix s suffix = true <-> exists p, s = String.append p suffix.
Proof.
  unfold HasSuffix; split.
  - intros H. apply andb_true_iff in H as [Hlen Heq].
    apply Nat.leb_le in Hlen. apply String.eqb_eq in Heq.
    exists (substring 0 (String.length s - String.length suffix) s).
    pose proof (substring_split s (String.length s - String.length suffix)) as E.
    replace (String.length s - (String.length s - String.length suffix))%nat
      with (String.length suffix) in E by lia.
    rewrite Heq in E. apply E. lia.
  - intros [p ->]. rewrite length_append. apply andb_true_iff; split.
    + apply Nat.leb_le. lia.
    + replace (String.length p + String.length suffix - String.length suffix)%nat
        with (String.length p) by lia.
      rewrite substring_append_r, substring_all. apply String.eqb_refl.
Qed.

Lemma hasNZeros_spec (hash : string) (n : Z) :
  hasNZeros hash n = true <-> trailingZeros hash n.
Proof. unfold hasNZeros, trailingZeros. apply HasSuffix_spec. Qed.

Lemma hasNZeros_false (hash : string) (n : Z) :
  hasNZeros hash n = false <-> ~ trailingZeros hash n.
Proof.
  rewrite <- hasNZeros_spec.
  destruct (hasNZeros hash n); split; intros; congruence.
Qed.

Lemma FormatInt_inj (a b : Z) : FormatInt a = FormatInt b -> a = b.
Proof.
  unfold FormatInt; intros H. apply DecimalZ.to_int_inj.
  assert (Some (Z.to_int a) = Some (Z.to_int b)) as E.
  { rewrite <- (NilEmpty.isi (Z.to_int a)), <- (NilEmpty.isi (Z.to_int b)).
    now rewrite H. }
  now injection E.
Qed.

Lemma ParseUint_FormatInt (j : Z) :
  0 <= j < 2 ^ 32 -> ParseUint (FormatInt j) 32 = j.
Proof.
  intros Hj. unfold ParseUint, FormatInt.
  assert (exists d, Z.to_int j = Decimal.Pos d) as [d Hd].
  { destruct j; simpl; eauto. lia. }
  rewrite Hd. simpl. rewrite NilEmpty.usu.
  assert (Z.of_uint d = j) as ->.
  { pose proof (DecimalZ.of_to j) as E. rewrite Hd in E. exact E. }
  destruct (Z.ltb_spec j (2 ^ 32)); [reflexivity | lia].
Qed.

Lemma uint32_small (x : Z) : 0 <= x < 2 ^ 32 -> uint32 x = x.
Proof. intros H. unfold uint32. apply Z.mod_small. exact H. Qed.

Lemma uint32_add_l (a b : Z) : uint32 (uint32 a + b) = uint32 (a + b).
Proof. unfold uint32. apply Zplus_mod_idemp_l. Qed.

Lemma uint32_add_r (a b : Z) : uint32 (a + uint32 b) = uint32 (a + b).
Proof. unfold uint32. apply Zplus_mod_idemp_r. Qed.

Lemma int64_small (x : Z) : - 2 ^ 63 <= x < 2 ^ 63 -> int64 x = x.
Proof. intros H. unfold int64. rewrite Z.mod_small; lia. Qed.

Lemma bytes_of_string_append (s t : string) :
  bytes_of_string (String.append s t)
  = (bytes_of_string s ++ bytes_of_string t)%list.
Proof.
  unfold bytes_of_string. induction s as [|c s IH]; [reflexivity |].
  rewrite append_cons. simpl. f_equal. exact IH.
Qed.

(** A code point below 128 is one byte. *)
Lemma string_of_int_ascii (i : Z) :
  0 <= i < 128 -> bytes_of_string (string_of_int i) = [i].
Proof.
  intros Hi. unfold string_of_int, utf8_rune.
  destruct (Z.ltb_spec i 0); [lia |].
  destruct (Z.ltb_spec 0x10FFFF i); [lia |].
  destruct (Z.leb_spec 0xD800 i); [lia |]. simpl.
  destruct (Z.ltb_spec i 0x80); [| lia].
  unfold string_of_bytes, bytes_of_string. simpl.
  rewrite N_ascii_embedding by lia. f_equal. lia.
Qed.

(** ** The nonce search *)

Lemma counter_S (m : nat) (j : Z) : counter (S m) j = counter m (int64 (j + 1)).
Proof.
  unfold counter. revert j. induction m as [|m IH]; intros j; [reflexivity |].
  change (Nat.iter (S (S m)) (fun x => int64 (x + 1)) j)
    with (int64 (Nat.iter (S m) (fun x => int64 (x + 1)) j + 1)).
  rewrite IH. reflexivity.
Qed.

Lemma counter_small (m : nat) (j : Z) :
  0 <= j -> j + Z.of_nat m < 2 ^ 63 -> counter m j = j + Z.of_nat m.
Proof.
  revert j. induction m as [|m IH]; intros j Hj Hm.
  - unfold counter; simpl. lia.
  - rewrite counter_S, IH; rewrite ?int64_small; lia.
Qed.

Lemma counter_zero (m : nat) :
  Z.of_nat m < 2 ^ 63 -> counter m 0 = Z.of_nat m.
Proof. intros H. rewrite counter_small; lia. Qed.

(** The search returns at the first counter value whose hash has the
    zeros, with that hash and the counter in decimal. *)
Lemma calculateHash_from_spec fuel bs d j h n :
  calculateHash_from fuel bs d j = Some (h, n) <->
  exists m, (m < fuel)%nat
    /\ n = FormatInt (counter m j)
    /\ h = computeNonceSecretHash bs n
    /\ hasNZeros h d = true
    /\ forall m', (m' < m)%nat ->
         hasNZeros (computeNonceSecretHash bs (FormatInt (counter m' j))) d
         = false.
Proof.
  revert j. induction fuel as [|fuel IH]; intros j; simpl.
  - split; [discriminate | intros (m & Hm & _); lia].
  - destruct (hasNZeros (computeNonceSecretHash bs (FormatInt j)) d) eqn:E.
    + split.
      * intros [= <- <-]. exists O.
        split; [lia |]. split; [reflexivity |]. split; [reflexivity |].
        split; [exact E |]. intros m' Hm'. lia.
      * intros (m & Hm & -> & -> & Hz & Hmin).
        destruct m as [|m]; [reflexivity |].
        specialize (Hmin O ltac:(lia)). unfold counter in Hmin; simpl in Hmin.
        congruence.
    + rewrite IH. split.
      * intros (m & Hm & -> & -> & Hz & Hmin). exists (S m).
        rewrite counter_S.
        split; [lia |]. split; [reflexivity |]. split; [reflexivity |].
        split; [exact Hz |].
        intros [|m'] Hm'; [exact E |]. rewrite counter_S. apply Hmin. lia.
      * intros (m & Hm & -> & -> & Hz & Hmin).
        destruct m as [|m].
        { unfold counter in Hz; simpl in Hz. congruence. }
        exists m. rewrite counter_S in Hz |- *.
        split; [lia |]. split; [reflexivity |]. split; [reflexivity |].
        split; [exact Hz |].
        intros m' Hm'. specialize (Hmin (S m') ltac:(lia)).
        rewrite counter_S in Hmin. exact Hmin.
Qed.

(** A larger step budget does not change a result. *)
Lemma calculateHash_from_mono fuel fuel' bs d j r :
  (fuel <= fuel')%nat ->
  calculateHash_from fuel bs d j = Some r ->
  calculateHash_from fuel' bs d j = Some r.
Proof.
  destruct r as [h n]. rewrite !calculateHash_from_spec.
  intros Hle (m & Hm & H). exists m. split; [lia | exact H].
Qed.

Lemma calculateHash_zeros fuel b d h n :
  calculateHash fuel b d = Some (h, n) -> hasNZeros h d = true.
Proof.
  unfold calculateHash. rewrite calculateHash_from_spec.
  intros (m & _ & _ & _ & Hz & _). exact Hz.
Qed.

(** Within 2^32 steps the nonce that the callers store is the counter
    that the search returned. *)
Lemma calculateHash_stored fuel b d h n :
  Z.of_nat fuel <= 2 ^ 32 ->
  calculateHash fuel b d = Some (h, n) ->
  h = nonceHash b (uint32 (ParseUint n 32)).
Proof.
  unfold calculateHash. rewrite calculateHash_from_spec.
  intros Hf (m & Hm & -> & -> & _).
  rewrite counter_zero by lia.
  rewrite ParseUint_FormatInt by lia. rewrite uint32_small by lia.
  reflexivity.
Qed.


(** ** Ink totals over a chain *)

Lemma costOfOperations_from_spec (s : Z) (ops : list Operation) :
  costOfOperations_from (uint32 s) ops
  = uint32 (s + 30 * Z.of_nat (List.length ops)).
Proof.
  revert s. induction ops as [|op rest IH]; intros s; simpl.
  - f_equal. lia.
  - unfold shapeInkCost. rewrite uint32_add_l, IH. f_equal. lia.
Qed.

Lemma costOfOperations_spec (ops : list Operation) :
  costOfOperations ops = uint32 (30 * Z.of_nat (List.length ops)).
Proof.
  unfold costOfOperations. change 0 with (uint32 0) at 1.
  rewrite costOfOperations_from_spec. reflexivity.
Qed.

Lemma contains_spec (miners : list string) (miner : string) :
  contains miners miner = true <-> In miner miners.
Proof.
  induction miners as [|m rest IH]; simpl.
  - split; [discriminate | tauto].
  - destruct (String.eqb_spec miner m) as [->|Hne].
    + split; auto.
    + rewrite IH. split; [auto |]. intros [E|E]; [congruence | exact E].
Qed.

(** The miners that [minersInBlockChain] lists are the producers. *)
Lemma minersInBlockChain_from_spec (acc : list string) (bc : list Block) miner :
  In miner (minersInBlockChain_from acc bc)
  <-> In miner acc \/ In miner (map PubKeyMiner bc).
Proof.
  revert acc. induction bc as [|blk rest IH]; intros acc; simpl.
  - tauto.
  - destruct (contains acc (PubKeyMiner blk)) eqn:E; simpl.
    + rewrite IH. apply contains_spec in E. split.
      * tauto.
      * intros [H|[H|H]]; subst; auto.
    + rewrite IH, in_app_iff. simpl. tauto.
Qed.

Section Validation.

Variable g : Globals.

Lemma totalInk_from_spec miner (a b : Z) (bc : list Block) :
  totalInk_from g miner (uint32 a) (uint32 b) bc
  = (uint32 (a + sumZ (map (fun blk => 30 * Z.of_nat (List.length (Ops blk)))
                         (List.filter (producedBy miner) bc))),
     uint32 (b + sumZ (map (reward g) (List.filter (producedBy miner) bc)))).
Proof.
  revert a b. induction bc as [|blk rest IH]; intros a b; simpl.
  - rewrite !Z.add_0_r. reflexivity.
  - change (String.eqb miner (PubKeyMiner blk)) with (producedBy miner blk).
    destruct (producedBy miner blk); simpl.
    + rewrite costOfOperations_spec, uint32_add_l, uint32_add_r.
      replace (if NoOpBlock blk
               then uint32 (uint32 b + InkPerNoOpBlock (settings g))
               else uint32 (uint32 b + InkPerOpBlock (settings g)))
        with (uint32 (b + reward g blk))
        by (unfold reward; destruct (NoOpBlock blk); now rewrite uint32_add_l).
      rewrite IH. f_equal; f_equal; lia.
    + apply IH.
Qed.

(** The loop of [totalInkSpentAndMinedByMiner] computes the two sums. *)
Lemma totalInkSpentAndMinedByMiner_spec bc miner :
  totalInkSpentAndMinedByMiner g bc miner
  = (inkSpentBy bc miner, inkMinedBy g bc miner).
Proof.
  unfold totalInkSpentAndMinedByMiner, inkSpentBy, inkMinedBy.
  change 0 with (uint32 0) at 1 2. rewrite totalInk_from_spec. reflexivity.
Qed.

Lemma validateSufficientInkAll_loop_spec bc miners :
  validateSufficientInkAll_loop g bc miners = true
  <-> forall miner, In miner miners ->
        inkSpentBy bc miner <= inkMinedBy g bc miner.
Proof.
  induction miners as [|m rest IH]; simpl.
  - split; [intros _ ? [] | reflexivity].
  - unfold validateSufficientInkMiner at 1.
    rewrite totalInkSpentAndMinedByMiner_spec.
    destruct (Z.leb_spec (inkSpentBy bc m) (inkMinedBy g bc m)) as [Hle|Hgt];
      simpl.
    + rewrite IH. split.
      * intros H miner [<-|Hin]; auto.
      * intros H miner Hin. apply H. auto.
    + split; [discriminate |].
      intros H. specialize (H m (or_introl eq_refl)). lia.
Qed.

Lemma validateSufficientInkAll_spec bc :
  validateSufficientInkAll g bc = true <-> minedAtLeastSpent g bc.
Proof.
  unfold validateSufficientInkAll, minedAtLeastSpent.
  rewrite validateSufficientInkAll_loop_spec. unfold minersInBlockChain.
  split; intros H miner Hin; apply H.
  - apply minersInBlockChain_from_spec. auto.
  - apply minersInBlockChain_from_spec in Hin as [[]|Hin]. exact Hin.
Qed.

Lemma isSentChainLonger_spec bc :
  isSentChainLonger g bc = true <-> strictlyLonger g bc.
Proof. unfold isSentChainLonger, strictlyLonger. apply Nat.ltb_lt. Qed.

(** ** Validation of a chain *)

Lemma validateBlockHashNonce_true fuel b h :
  validateBlockHashNonce fuel g b = Some (true, h) ->
  h = blockHash b
  /\ calculateHash fuel b (difficultyOf g b) = Some (h, FormatInt (Nonce b))
  /\ (1 <? Index b) && negb (hasNZeros (PrevHash b) (difficultyOf g b)) = false.
Proof.
  unfold validateBlockHashNonce.
  destruct ((1 <? Index b) && negb (hasNZeros (PrevHash b) (difficultyOf g b)));
    [discriminate |].
  destruct (calculateHash fuel b (difficultyOf g b)) as [[h' n]|] eqn:E;
    [| discriminate].
  intros [= Hn <-]. apply String.eqb_eq in Hn. subst n.
  split; [| split; reflexivity].
  unfold calculateHash in E. apply calculateHash_from_spec in E.
  destruct E as (m & _ & Hn & -> & _). unfold blockHash, nonceHash.
  reflexivity.
Qed.

Lemma validateBlockHashNonce_mono fuel fuel' b r :
  (fuel <= fuel')%nat ->
  validateBlockHashNonce fuel g b = Some r ->
  validateBlockHashNonce fuel' g b = Some r.
Proof.
  unfold validateBlockHashNonce, calculateHash. intros Hle.
  destruct ((1 <? Index b) && negb (hasNZeros (PrevHash b) (difficultyOf g b)));
    [auto |].
  destruct (calculateHash_from fuel _ _ _) as [[h n]|] eqn:E; [| discriminate].
  rewrite (calculateHash_from_mono _ _ _ _ _ _ Hle E). auto.
Qed.

Lemma validateBlockChain_from_mono fuel fuel' hv bc r :
  (fuel <= fuel')%nat ->
  validateBlockChain_from fuel g hv bc = Some r ->
  validateBlockChain_from fuel' g hv bc = Some r.
Proof.
  intros Hle. revert hv.
  induction bc as [|b rest IH]; intros hv; simpl; [auto |].
  destruct ((1 <? Index b) && negb (String.eqb hv (PrevHash b))); [auto |].
  destruct (validateBlockHashNonce fuel g b) as [[v h]|] eqn:E; [| discriminate].
  rewrite (validateBlockHashNonce_mono _ _ _ _ Hle E).
  destruct (negb v || negb (validateBlockOpSigs b)); [auto | apply IH].
Qed.

Lemma validateBlockChain_from_true fuel hv bc :
  validateBlockChain_from fuel g hv bc = Some true <->
  parentLinks hv bc /\ Forall (blockChecked fuel g) bc.
Proof.
  revert hv. induction bc as [|b rest IH]; intros hv; simpl.
  - split; [intros _; split; [exact I | constructor] | reflexivity].
  - destruct (Z.ltb_spec 1 (Index b)) as [Hi|Hi]; simpl.
    + destruct (String.eqb_spec hv (PrevHash b)) as [Hp|Hp]; simpl.
      * destruct (validateBlockHashNonce fuel g b) as [[v h]|] eqn:E.
        -- destruct v; simpl.
           ++ destruct (validateBlockHashNonce_true _ _ _ E) as (-> & _).
              destruct (validateBlockOpSigs b) eqn:Es; simpl.
              ** rewrite IH. split.
                 --- intros [Hl Hf]. split; [split; [auto | exact Hl] |].
                     constructor; [split; assumption | exact Hf].
                 --- intros [[_ Hl] Hf]. inversion Hf; subst. split; assumption.
              ** split; [discriminate |].
                 intros [_ Hf]. inversion Hf as [|? ? [_ Hs] ?]; subst.
                 congruence.
           ++ split; [discriminate |].
              intros [_ Hf]. inversion Hf as [|? ? [Hv _] ?]; subst. congruence.
        -- split; [discriminate |].
           intros [_ Hf]. inversion Hf as [|? ? [Hv _] ?]; subst. congruence.
      * split; [discriminate |].
        intros [[Hl _] _]. specialize (Hl Hi). congruence.
    + destruct (validateBlockHashNonce fuel g b) as [[v h]|] eqn:E.
      * destruct v; simpl.
        -- destruct (validateBlockHashNonce_true _ _ _ E) as (-> & _).
           destruct (validateBlockOpSigs b) eqn:Es; simpl.
           ++ rewrite IH. split.
              ** intros [Hl Hf]. split; [split; [lia | exact Hl] |].
                 constructor; [split; assumption | exact Hf].
              ** intros [[_ Hl] Hf]. inversion Hf; subst. split; assumption.
           ++ split; [discriminate |].
              intros [_ Hf]. inversion Hf as [|? ? [_ Hs] ?]; subst. congruence.
        -- split; [discriminate |].
           intros [_ Hf]. inversion Hf as [|? ? [Hv _] ?]; subst. congruence.
      * split; [discriminate |].
        intros [_ Hf]. inversion Hf as [|? ? [Hv _] ?]; subst. congruence.
Qed.

Lemma validateBlockOpSigs_spec b :
  validateBlockOpSigs b = true <-> opSignatures b.
Proof.
  unfold validateBlockOpSigs, opSignatures.
  generalize (PubKeyMiner b) as k. intros k.
  induction (Ops b) as [|op rest IH]; simpl.
  - split; [constructor | reflexivity].
  - destruct (String.eqb_spec (computeNonceSecretHash k (AppShape op)) (OpSig op))
      as [E|E]; simpl.
    + rewrite IH. split.
      * intros H. constructor; [symmetry; exact E | exact H].
      * intros H. inversion H; subst. assumption.
    + split; [discriminate |]. intros H. inversion H; subst. congruence.
Qed.

(** A block that passes the nonce check has its proof of work: the stored
    nonce is the first one that works. *)
Lemma validateBlockHashNonce_pow fuel b :
  nonceInRange b ->
  validateBlockHashNonce fuel g b = Some (true, blockHash b) ->
  proofOfWork g b.
Proof.
  intros Hr H. unfold nonceInRange in Hr.
  apply validateBlockHashNonce_true in H.
  destruct H as (_ & Hc & Hp).
  unfold calculateHash in Hc. apply calculateHash_from_spec in Hc.
  destruct Hc as (m & Hm & Hn & Hh & Hz & Hmin).
  apply FormatInt_inj in Hn.
  assert (m = Z.to_nat (Nonce b)) as ->.
  { destruct (Nat.lt_ge_cases (Z.to_nat (Nonce b)) m) as [Hlt|Hge].
    - specialize (Hmin _ Hlt). rewrite counter_zero in Hmin by lia.
      rewrite Z2Nat.id in Hmin by lia.
      rewrite Hh in Hz. congruence.
    - rewrite counter_zero in Hn by lia. lia. }
  split; [| split].
  - intros Hi. apply hasNZeros_spec.
    destruct (Z.ltb_spec 1 (Index b)); [| lia]. simpl in Hp.
    now destruct (hasNZeros (PrevHash b) (difficultyOf g b)).
  - apply hasNZeros_spec. exact Hz.
  - intros k Hk. apply hasNZeros_false.
    specialize (Hmin (Z.to_nat k) ltac:(lia)).
    rewrite counter_zero in Hmin by lia. rewrite Z2Nat.id in Hmin by lia.
    exact Hmin.
Qed.

(** A block with its proof of work passes the nonce check, in as many
    steps as its nonce counts. *)
Lemma proofOfWork_validates b :
  nonceInRange b ->
  proofOfWork g b ->
  validateBlockHashNonce (S (Z.to_nat (Nonce b))) g b
  = Some (true, blockHash b).
Proof.
  intros Hr (Hp & Hz & Hmin). unfold nonceInRange in Hr.
  unfold validateBlockHashNonce.
  assert ((1 <? Index b) && negb (hasNZeros (PrevHash b) (difficultyOf g b))
          = false) as ->.
  { destruct (Z.ltb_spec 1 (Index b)); [| reflexivity]. simpl.
    apply hasNZeros_spec in Hp; [| assumption]. now rewrite Hp. }
  assert (calculateHash (S (Z.to_nat (Nonce b))) b (difficultyOf g b)
          = Some (blockHash b, FormatInt (Nonce b))) as ->.
  { unfold calculateHash. apply calculateHash_from_spec.
    exists (Z.to_nat (Nonce b)). rewrite counter_zero by lia.
    rewrite Z2Nat.id by lia.
    split; [lia |]. split; [reflexivity |]. split; [reflexivity |].
    split; [apply hasNZeros_spec; exact Hz |].
    intros m' Hm'. rewrite counter_zero by lia.
    apply hasNZeros_false. apply Hmin. lia. }
  now rewrite String.eqb_refl.
Qed.

(** What [validateBlockChain] accepts, for a chain of 32-bit nonces. *)
Lemma validateBlockChain_spec bc :
  Forall nonceInRange bc ->
  (exists fuel, validateBlockChain fuel g bc = Some true)
  <-> parentLinks EmptyString bc
      /\ Forall (proofOfWork g) bc /\ Forall opSignatures bc.
Proof.
  intros Hr. unfold validateBlockChain. split.
  - intros [fuel H]. apply validateBlockChain_from_true in H as [Hl Hc].
    split; [exact Hl |].
    rewrite Forall_forall in Hr, Hc. rewrite !Forall_forall.
    split; intros b Hb; destruct (Hc b Hb) as [Hv Hs].
    + eapply validateBlockHashNonce_pow; eauto.
    + apply validateBlockOpSigs_spec. exact Hs.
  - intros (Hl & Hp & Hs). exists (Z.to_nat (2 ^ 32)).
    apply validateBlockChain_from_true. split; [exact Hl |].
    rewrite Forall_forall in Hr, Hp, Hs. rewrite Forall_forall.
    intros b Hb. split.
    + apply (validateBlockHashNonce_mono (S (Z.to_nat (Nonce b)))).
      * specialize (Hr b Hb). unfold nonceInRange in Hr. lia.
      * apply proofOfWork_validates; auto.
    + apply validateBlockOpSigs_spec. auto.
Qed.

Lemma validateBlockChain_false fuel bc :
  validateBlockChain fuel g bc = Some false ->
  ~ exists fuel', validateBlockChain fuel' g bc = Some true.
Proof.
  unfold validateBlockChain. intros H [fuel' H'].
  pose proof (validateBlockChain_from_mono fuel (Nat.max fuel fuel') _ _ _
                ltac:(lia) H) as E.
  pose proof (validateBlockChain_from_mono fuel' (Nat.max fuel fuel') _ _ _
                ltac:(lia) H') as E'.
  congruence.
Qed.

Lemma SendBlockchain_cases fuel bc g' :
  SendBlockchain fuel g bc = Some g' ->
  g' = g
  \/ (g' = set_blockChain g bc
      /\ isSentChainLonger g bc = true
      /\ validateSufficientInkAll g bc = true
      /\ validateBlockChain fuel g bc = Some true).
Proof.
  unfold SendBlockchain.
  destruct (isSentChainLonger g bc); [| intros [= <-]; auto].
  destruct (validateSufficientInkAll g bc); [| intros [= <-]; auto].
  destruct (validateBlockChain fuel g bc) as [[|]|]; [| | discriminate].
  - intros [= <-]. auto.
  - intros [= <-]. auto.
Qed.

(** C5, as amended.  When a chain [bc] arrives from a peer,
    [SendBlockchain] replaces the local chain by [bc] if and only if [bc]
    is strictly longer than the local chain and passes the validation of
    the code, and in every other case it leaves the miner as it was.  The
    validation of the code is [chainValid]: of each block of index above
    1, and of no other block, that it names the hash of the block before
    it and that this parent hash ends in the zeros of the difficulty of
    the block; of each block, that its stored nonce is the first one,
    counting from 0, at which its hash ends in the zeros of its
    difficulty, so a later nonce at which the hash has the zeros does not
    pass; of each operation, that its signature is the hash of the
    producer key followed by the shape; and for each producer at least as
    much ink mined as spent, in 32-bit totals.  The first part gives a
    step budget with which the handler returns having replaced the chain;
    the second is about every return of the handler.  The nonces of [bc]
    are 32-bit values, as their Go type makes them. *)
Theorem SendBlockchain_replaces_iff (bc : list Block) :
  Forall nonceInRange bc ->
  (strictlyLonger g bc /\ chainValid g bc ->
   exists fuel, SendBlockchain fuel g bc = Some (set_blockChain g bc))
  /\ (forall fuel g', SendBlockchain fuel g bc = Some g' ->
        (strictlyLonger g bc /\ chainValid g bc /\ g' = set_blockChain g bc)
        \/ (~ (strictlyLonger g bc /\ chainValid g bc) /\ g' = g)).
Proof.
  intros Hr. pose proof (validateBlockChain_spec bc Hr) as Hv.
  unfold chainValid. split.
  - intros (Hlen & Hl & Hp & Hs & Hink).
    destruct (proj2 Hv (conj Hl (conj Hp Hs))) as [fuel Hf].
    exists fuel. unfold SendBlockchain.
    apply isSentChainLonger_spec in Hlen. rewrite Hlen.
    apply validateSufficientInkAll_spec in Hink. rewrite Hink, Hf. reflexivity.
  - intros fuel g'. unfold SendBlockchain.
    destruct (isSentChainLonger g bc) eqn:Elen.
    + destruct (validateSufficientInkAll g bc) eqn:Eink.
      * destruct (validateBlockChain fuel g bc) as [[|]|] eqn:Ev;
          [| | discriminate].
        -- intros [= <-]. left.
           apply isSentChainLonger_spec in Elen.
           apply validateSufficientInkAll_spec in Eink.
           destruct (proj1 Hv (ex_intro _ fuel Ev)) as (Hl & Hp & Hs).
           auto 10.
        -- intros [= <-]. right. split; [| reflexivity].
           intros (_ & Hl & Hp & Hs & _).
           apply (validateBlockChain_false _ _ Ev). apply Hv. auto.
      * intros [= <-]. right. split; [| reflexivity].
        intros (_ & _ & _ & _ & Hink).
        apply validateSufficientInkAll_spec in Hink. congruence.
    + intros [= <-]. right. split; [| reflexivity].
      intros (Hlen & _). apply isSentChainLonger_spec in Hlen. congruence.
Qed.

End Validation.

(** ** Proof of work of the blocks on the local chain *)

Lemma generateNoOpBlock_pow fuel g minerPubKey blk g' :
  Z.of_nat fuel <= 2 ^ 32 ->
  blockChain g <> [] ->
  generateNoOpBlock fuel g minerPubKey = Returned (blk, g') ->
  hasNZeros (blockHash blk) (PoWDifficultyNoOpBlock (settings g)) = true
  /\ NoOpBlock blk = true /\ Ops blk = [].
Proof.
  intros Hf Hne. unfold generateNoOpBlock.
  destruct (last (blockChain g)) as [lastBlk|] eqn:El;
    [| apply last_None in El; contradiction].
  destruct (calculateHash fuel lastBlk (difficultyOf g lastBlk)) as [[lh ln]|];
    [| discriminate].
  destruct (allocated (inkMaps g) (MinerInks lastBlk)); cbn [negb];
    [| discriminate].
  case_search h n E.
  intros [= <- <-].
  pose proof (calculateHash_zeros _ _ _ _ _ E) as Hz.
  apply calculateHash_stored in E; [| exact Hf].
  split; [| split; reflexivity].
  rewrite E in Hz. exact Hz.
Qed.

Lemma AddShape_pow fuel helper g args g' lastOne reply blk :
  Z.of_nat fuel <= 2 ^ 32 ->
  AddShape fuel helper g args = Returned (g', AddShapeWaits lastOne reply) ->
  last (blockChain g') = Some blk ->
  hasNZeros (blockHash blk) (PoWDifficultyOpBlock (settings g)) = true
  /\ NoOpBlock blk = false /\ Ops blk <> []
  /\ BlockHash reply = blockHash blk.
Proof.
  intros Hf. unfold AddShape.
  destruct (last (blockChain g)) as [lastBlk|]; [| discriminate].
  destruct (helper _ _ _ _ _) as [[spentInk err] canvas'].
  destruct err as [e|]; [discriminate |].
  case_search preHash pn Epre.
  destruct (totalInkSpentAndMinedByMiner _ _ _) as [inkSpent0 inkMined0].
  destruct (allocated (inkMaps _) _) eqn:Ea1; cbn [negb]; [| discriminate].
  destruct (allocated (opsMaps _) _) eqn:Ea2; cbn [negb]; [| discriminate].
  case_search h n E.
  intros [= <- <- <-]. simpl. rewrite last_snoc. intros [= <-].
  pose proof (calculateHash_zeros _ _ _ _ _ E) as Hz.
  apply calculateHash_stored in E; [| exact Hf].
  split; [rewrite E in Hz; exact Hz |].
  split; [reflexivity |].
  split; [simpl; destruct (Ops lastBlk); discriminate |].
  simpl. exact E.
Qed.

Lemma received_block_pow fuel g bc blk :
  validateBlockChain fuel g bc = Some true ->
  In blk bc ->
  hasNZeros (blockHash blk) (difficultyOf g blk) = true.
Proof.
  unfold validateBlockChain. intros H Hin.
  apply validateBlockChain_from_true in H as [_ Hc].
  rewrite Forall_forall in Hc. apply list_elem_of_In in Hin.
  destruct (Hc blk Hin) as [Hv _].
  apply validateBlockHashNonce_true in Hv as (_ & Hcalc & _).
  exact (calculateHash_zeros _ _ _ _ _ Hcalc).
Qed.

(** C1, as amended.  A block that came onto the local chain by mining on
    a chain that is not empty, by [AddShape], or as a member of a peer
    chain that replaced the local one, has a hash (the MD5 of its string
    and its stored nonce) that ends in at least D zeros, where D is the
    difficulty selected by the [NoOpBlock] field of the block: the no-op
    difficulty when the field is set, the op difficulty otherwise.  For a
    block mined or added by this miner the field is set exactly when the
    block has no operation.  The nonce searches run within 2^32 steps. *)
Theorem accepted_block_has_zeros (fuel : nat) (o : Origin) (g : Globals)
  (blk : Block) (g' : Globals) :
  Z.of_nat fuel <= 2 ^ 32 ->
  accepted fuel o g blk g' ->
  trailingZeros (blockHash blk) (difficultyOf g blk)
  /\ (o <> FromPeer -> NoOpBlock blk = isNoOpBlock blk).
Proof.
  intros Hf Hacc. destruct Hacc as
    [g k blk g' Hne Hgen | helper g args g' lastOne reply blk Hadd Hlast
    | g bc g' blk Hsend Hchg Hin].
  - destruct (generateNoOpBlock_pow _ _ _ _ _ Hf Hne Hgen) as (Hz & Hno & Hops).
    split.
    + apply hasNZeros_spec. unfold difficultyOf. rewrite Hno. exact Hz.
    + intros _. unfold isNoOpBlock. rewrite Hno, Hops. reflexivity.
  - destruct (AddShape_pow _ _ _ _ _ _ _ _ Hf Hadd Hlast)
      as (Hz & Hno & Hops & _).
    split.
    + apply hasNZeros_spec. unfold difficultyOf. rewrite Hno. exact Hz.
    + intros _. unfold isNoOpBlock. rewrite Hno.
      destruct (Ops blk); [contradiction | reflexivity].
  - split; [| intros H; contradiction].
    apply hasNZeros_spec.
    destruct (SendBlockchain_cases _ _ _ _ Hsend) as [->|(-> & _ & _ & Hv)];
      [contradiction |].
    eapply received_block_pow; eauto.
Qed.

(** ** The bytes that are hashed *)

Lemma convertOpToString_concat (ops : list Operation) :
  convertOpToString ops = String.concat EmptyString (map opRecord ops).
Proof.
  induction ops as [|op rest IH]; [reflexivity |].
  change (convertOpToString (op :: rest))
    with (String.append
            (String.append (String.append (AppShape op) (OpSig op))
               (PubKeyArtNode op))
            (convertOpToString rest)).
  rewrite IH. destruct rest as [|op' rest'].
  - simpl. rewrite append_nil_r. unfold opRecord. apply append_assoc.
  - change (String.concat EmptyString (map opRecord (op :: op' :: rest')))
      with (String.append (opRecord op)
              (String.append EmptyString
                 (String.concat EmptyString (map opRecord (op' :: rest'))))).
    unfold opRecord at 2. rewrite (append_assoc (AppShape op)). reflexivity.
Qed.

Lemma blkToString_serialization (b : Block) (nonce : Z) :
  bytes_of_string (String.append (blkToString b) (FormatInt nonce))
  = codeSerialization b nonce.
Proof.
  unfold blkToString, codeSerialization.
  rewrite !bytes_of_string_append, convertOpToString_concat.
  rewrite <- !app_assoc. reflexivity.
Qed.

(** C4, as amended.  The hash of a block is the MD5, in lower-case
    hexadecimal, of the concatenation of the parent hash, the operation
    records in order (shape, signature, art-node key), the producer key,
    the index converted by [string(int)], that is the UTF-8 bytes of the
    code point of that number, and the nonce in decimal digits.  Every
    hash that the nonce search returns has this form for the nonce it
    returns with it.  An index from 0 to 127 is the single byte of that
    value. *)
Theorem block_hash_serialization (b : Block) :
  blockHash b = hex_EncodeToString (MD5.sum (codeSerialization b (Nonce b)))
  /\ (forall fuel d h n, calculateHash fuel b d = Some (h, n) ->
        exists j, n = FormatInt j
          /\ h = hex_EncodeToString (MD5.sum (codeSerialization b j)))
  /\ (0 <= Index b < 128 ->
        bytes_of_string (string_of_int (Index b)) = [Index b]).
Proof.
  split; [| split].
  - unfold blockHash, nonceHash, computeNonceSecretHash.
    rewrite blkToString_serialization. reflexivity.
  - intros fuel d h n H. unfold calculateHash in H.
    apply calculateHash_from_spec in H.
    destruct H as (m & _ & -> & -> & _). exists (counter m 0).
    split; [reflexivity |].
    unfold computeNonceSecretHash. rewrite blkToString_serialization.
    reflexivity.
  - apply string_of_int_ascii.
Qed.

(** ** The client library *)

(** C7.  [AddShape] of the library, given a path string of more than 128
    bytes, returns the too-long error carrying that string and sends
    nothing to the miner; given a path string of at most 128 bytes, and so
    one of exactly 128 bytes, it never returns the too-long error. *)
Theorem AddShape_length_check (c : BlockArtLib.MyCanvas)
  (validateNum shapeType : Z) (shapeSvgString fill stroke : string) :
  ((128 < String.length shapeSvgString)%nat ->
   BlockArtLib.AddShape c validateNum shapeType shapeSvgString fill stroke
   = {| BlockArtLib.ret_shapeHash := EmptyString;
        BlockArtLib.ret_blockHash := EmptyString;
        BlockArtLib.ret_inkRemaining := 0;
        BlockArtLib.ret_err :=
          Some (BlockArtLib.ShapeSvgStringTooLongError shapeSvgString);
        BlockArtLib.ret_sent := [] |})
  /\ ((String.length shapeSvgString <= 128)%nat ->
      forall e,
        BlockArtLib.ret_err
          (BlockArtLib.AddShape c validateNum shapeType shapeSvgString
             fill stroke)
        <> Some (BlockArtLib.ShapeSvgStringTooLongError e)).
Proof.
  unfold BlockArtLib.AddShape. split.
  - intros H. apply Nat.ltb_lt in H. rewrite H. reflexivity.
  - intros H e. apply Nat.ltb_ge in H. rewrite H.
    destruct (String.eqb stroke fill && String.eqb fill "transparent").
    + simpl. discriminate.
    + destruct (BlockArtLib.Call_AddShape _ _) as [reply [msg|]]; simpl;
        discriminate.
Qed.

(** The three values that [AddShape] of the library returns next to its
    error are always the zero values. *)
Lemma AddShape_returns_zero_values (c : BlockArtLib.MyCanvas)
  (validateNum shapeType : Z) (shapeSvgString fill stroke : string) :
  let r :=
    BlockArtLib.AddShape c validateNum shapeType shapeSvgString fill stroke in
  BlockArtLib.ret_shapeHash r = EmptyString
  /\ BlockArtLib.ret_blockHash r = EmptyString
  /\ BlockArtLib.ret_inkRemaining r = 0.
Proof.
  unfold BlockArtLib.AddShape.
  destruct (128 <? String.length shapeSvgString)%nat; [repeat split |].
  destruct (String.eqb stroke fill && String.eqb fill "transparent");
    [repeat split |].
  destruct (BlockArtLib.Call_AddShape _ _); repeat split.
Qed.

(** C9.  Whatever [validateNum] and [shapeHash] two calls of [DeleteShape]
    of the library are given, each sends the one request whose arguments
    are the zero value of [DelShapeArgs], and the two calls return the
    same; on a connection to a miner in state [g] what comes back is what
    the handler of the miner makes of the zero arguments in [g]. *)
Theorem DeleteShape_request_is_constant (c : BlockArtLib.MyCanvas)
  (validateNum1 validateNum2 : Z) (shapeHash1 shapeHash2 : string) :
  BlockArtLib.del_sent (BlockArtLib.DeleteShape c validateNum1 shapeHash1)
  = [BlockArtLib.InkMinerRPC_DeleteShape zeroDelShapeArgs]
  /\ BlockArtLib.del_sent (BlockArtLib.DeleteShape c validateNum2 shapeHash2)
     = [BlockArtLib.InkMinerRPC_DeleteShape zeroDelShapeArgs]
  /\ BlockArtLib.DeleteShape c validateNum1 shapeHash1
     = BlockArtLib.DeleteShape c validateNum2 shapeHash2
  /\ forall fuel helper g minerKey artKey,
       let reply :=
         BlockArtLib.DeleteShape (canvasOn fuel helper g minerKey artKey)
           validateNum1 shapeHash1 in
       (BlockArtLib.del_inkRemaining reply, BlockArtLib.del_err reply)
       = match Miner.DeleteShape g (wire_DelShapeArgs zeroDelShapeArgs) with
         | inl ink => (ink, None)
         | inr e => (0, Some (BlockArtLib.RpcError (Miner.Error_string e)))
         end.
Proof.
  unfold BlockArtLib.DeleteShape.
  change {| BlockArtLib.validateNum := 0; BlockArtLib.shapeHash := EmptyString;
            BlockArtLib.DelArtNodePK := EmptyString |} with zeroDelShapeArgs.
  split; [| split; [| split]].
  - destruct (BlockArtLib.Call_DeleteShape _ _); reflexivity.
  - destruct (BlockArtLib.Call_DeleteShape _ _); reflexivity.
  - reflexivity.
  - intros fuel helper g minerKey artKey. simpl. unfold serve_DeleteShape.
    destruct (Miner.DeleteShape g (wire_DelShapeArgs zeroDelShapeArgs));
      reflexivity.
Qed.

(** ** The reply slice of GetShapes *)

(** The copying loop started at [j]: it succeeds exactly when the slice
    has room for all the operations, and then overwrites in place. *)
Lemma writeShapeHashes_spec (ops : list Operation) (j : nat)
  (shapeHashes : list string) :
  (j <= List.length shapeHashes)%nat ->
  writeShapeHashes ops j shapeHashes
  = if (j + List.length ops <=? List.length shapeHashes)%nat
    then Some (take j shapeHashes ++ map OpSig ops
               ++ drop (j + List.length ops) shapeHashes)%list
    else None.
Proof.
  revert j shapeHashes. induction ops as [|op rest IH]; intros j sl Hj; simpl.
  - rewrite Nat.add_0_r. destruct (Nat.leb_spec j (List.length sl)); [| lia].
    now rewrite take_drop.
  - destruct (Nat.ltb_spec j (List.length sl)) as [Hlt|Hge].
    + rewrite IH by (rewrite length_insert; lia).
      rewrite length_insert.
      replace (S j + List.length rest)%nat with (j + S (List.length rest))%nat
        by lia.
      destruct (Nat.leb_spec (j + S (List.length rest)) (List.length sl));
        [| reflexivity].
      f_equal.
      rewrite (take_S_r _ _ (OpSig op)) by (apply list_lookup_insert_eq; lia).
      rewrite take_insert_ge by lia.
      rewrite drop_insert_lt by lia.
      rewrite <- app_assoc. reflexivity.
    + destruct (Nat.leb_spec (j + S (List.length rest)) (List.length sl));
        [lia | reflexivity].
Qed.

Lemma GetShapes_write_panics (ops : list Operation) (shapeHashes : list string) :
  (List.length shapeHashes < List.length ops)%nat ->
  GetShapes_write ops shapeHashes = Panicked.
Proof.
  intros H. unfold GetShapes_write.
  rewrite writeShapeHashes_spec by lia. simpl.
  destruct (Nat.leb_spec (List.length ops) (List.length shapeHashes));
    [lia | reflexivity].
Qed.

Lemma GetShapes_write_returns (ops : list Operation)
  (shapeHashes : list string) r :
  GetShapes_write ops shapeHashes = Returned r ->
  (List.length ops <= List.length shapeHashes)%nat
  /\ r = inl (map OpSig ops ++ drop (List.length ops) shapeHashes)%list.
Proof.
  unfold GetShapes_write. rewrite writeShapeHashes_spec by lia. simpl.
  destruct (Nat.leb_spec (List.length ops) (List.length shapeHashes));
    [| discriminate].
  intros [= <-]. split; [assumption | reflexivity].
Qed.

Lemma GetShapes_write_room (ops : list Operation)
  (shapeHashes : list string) :
  (List.length ops <= List.length shapeHashes)%nat ->
  GetShapes_write ops shapeHashes
  = Returned (inl (map OpSig ops ++ drop (List.length ops) shapeHashes)%list).
Proof.
  intros H. unfold GetShapes_write. rewrite writeShapeHashes_spec by lia.
  simpl.
  destruct (Nat.leb_spec (List.length ops) (List.length shapeHashes));
    [reflexivity | lia].
Qed.

(** The downward scan: the highest block below [n] whose [PrevHash] is
    the hash asked for decides. *)
Lemma GetShapes_scan_found chain n askedHash shapeHashes i child b :
  (S i < n)%nat ->
  chain !! S i = Some child ->
  PrevHash child = askedHash ->
  (forall k c, (S i < k)%nat -> chain !! k = Some c -> PrevHash c <> askedHash) ->
  chain !! i = Some b ->
  (n <= List.length chain)%nat ->
  GetShapes_scan chain n askedHash shapeHashes
  = GetShapes_write (Ops b) shapeHashes.
Proof.
  intros Hn Hc Hp Hhigh Hb. induction n as [|n IH]; intros Hlen; [lia |].
  simpl. destruct (Nat.eq_dec n (S i)) as [->|Hne].
  - rewrite Hc. rewrite Hp, String.eqb_refl. rewrite Hb. reflexivity.
  - destruct (chain !! n) as [c|] eqn:Ec.
    + destruct (String.eqb_spec (PrevHash c) askedHash) as [E|E].
      * exfalso. apply (Hhigh n c); [lia | exact Ec | exact E].
      * apply IH; lia.
    + apply lookup_ge_None in Ec. lia.
Qed.

Lemma GetShapes_scan_returns chain n askedHash shapeHashes written :
  GetShapes_scan chain n askedHash shapeHashes = Returned (inl written) ->
  exists i child b,
    chain !! S i = Some child
    /\ PrevHash child = askedHash
    /\ (forall k c, (S i < k < n)%nat -> chain !! k = Some c ->
          PrevHash c <> askedHash)
    /\ chain !! i = Some b
    /\ GetShapes_write (Ops b) shapeHashes = Returned (inl written).
Proof.
  induction n as [|n IH]; simpl; [discriminate |].
  destruct (chain !! n) as [c|] eqn:Ec; [| discriminate].
  destruct (String.eqb_spec (PrevHash c) askedHash) as [E|E].
  - destruct n as [|i]; [discriminate |].
    destruct (chain !! i) as [b|] eqn:Eb; [| discriminate].
    intros H. exists i, c, b.
    split; [exact Ec |]. split; [exact E |].
    split; [intros k c' Hk; lia |]. split; [exact Eb | exact H].
  - intros H. destruct (IH H) as (i & child & b & Hc & Hp & Hhigh & Hb & Hw).
    exists i, child, b.
    split; [exact Hc |]. split; [exact Hp |].
    split; [| split; [exact Hb | exact Hw]].
    intros k c' Hk Hk'. destruct (Nat.eq_dec k n) as [->|Hne].
    + congruence.
    + apply (Hhigh k c'); [lia | exact Hk'].
Qed.

(** C10.  [GetShapes] stores the signatures of the operations of the
    block it selects into the slice behind the reply pointer by index and
    never grows that slice.  With the hash of the last block computed:
    when the selected block has more operations than the slice has
    elements (so at least one operation), the handler ends in an index
    out of range; when the slice is at least as long as the operations of
    the selected block, the handler returns a nil error with the
    signatures stored, in order, in the first elements of the slice and
    the elements after them as they were; and when the handler returns a
    nil error, the slice was at least as long as the operations of the
    selected block, it keeps its length, and its first elements are their
    signatures. *)
Theorem GetShapes_never_grows_reply (fuel : nat) (g : Globals)
  (askedHash : string) (shapeHashes : list string)
  (lastBlk : Block) (lastHash nonce : string) :
  last (blockChain g) = Some lastBlk ->
  calculateHash fuel lastBlk (difficultyOf g lastBlk) = Some (lastHash, nonce) ->
  (forall b, selects g lastHash askedHash b ->
     (List.length shapeHashes < List.length (Ops b))%nat ->
     GetShapes fuel g askedHash shapeHashes = Panicked)
  /\ (forall b, selects g lastHash askedHash b ->
        (List.length (Ops b) <= List.length shapeHashes)%nat ->
        GetShapes fuel g askedHash shapeHashes
        = Returned
            (inl (map OpSig (Ops b)
                  ++ drop (List.length (Ops b)) shapeHashes)%list))
  /\ (forall written,
        GetShapes fuel g askedHash shapeHashes = Returned (inl written) ->
        exists b, selects g lastHash askedHash b
          /\ (List.length (Ops b) <= List.length shapeHashes)%nat
          /\ List.length written = List.length shapeHashes
          /\ written
             = (map OpSig (Ops b)
                ++ drop (List.length (Ops b)) shapeHashes)%list).
Proof.
  intros Hlast Hcalc. unfold GetShapes. rewrite Hlast, Hcalc.
  assert (forall b, selects g lastHash askedHash b ->
            (if String.eqb lastHash askedHash
             then GetShapes_write (Ops lastBlk) shapeHashes
             else GetShapes_scan (blockChain g) (List.length (blockChain g))
                    askedHash shapeHashes)
            = GetShapes_write (Ops b) shapeHashes) as Hsel.
  { intros b Hsel.
    destruct Hsel as [b Hl He | i child b Hne Hc Hp Hhigh Hb].
    - subst. rewrite String.eqb_refl.
      assert (b = lastBlk) as -> by congruence. reflexivity.
    - apply String.eqb_neq in Hne. rewrite Hne.
      apply (GetShapes_scan_found _ _ _ _ i child b); auto.
      apply lookup_lt_Some in Hc. exact Hc. }
  split; [| split].
  - intros b Hb Hshort. rewrite (Hsel b Hb).
    apply GetShapes_write_panics. exact Hshort.
  - intros b Hb Hroom. rewrite (Hsel b Hb).
    apply GetShapes_write_room. exact Hroom.
  - intros written.
    destruct (String.eqb_spec lastHash askedHash) as [E|E].
    + intros H. apply GetShapes_write_returns in H as [Hlen [= ->]].
      exists lastBlk. split; [apply selects_last; assumption |].
      split; [exact Hlen |]. split; [| reflexivity].
      rewrite length_app, length_map, length_drop. lia.
    + intros H. apply GetShapes_scan_returns in H.
      destruct H as (i & child & b & Hc & Hp & Hhigh & Hb & Hw).
      apply GetShapes_write_returns in Hw as [Hlen [= ->]].
      exists b. split.
      * apply (selects_parent _ _ _ i child b); auto.
        intros k c Hk Hk'. apply (Hhigh k c); [| exact Hk'].
        apply lookup_lt_Some in Hk'. lia.
      * split; [exact Hlen |]. split; [| reflexivity].
        rewrite length_app, length_map, length_drop. lia.
Qed.

(** ** The properties on concrete runs *)

Import Scenario.

(** C1, counterexample.  Op difficulty 1, no-op difficulty 0.  A peer
    sends a chain of one block that carries an operation and has its
    [NoOpBlock] field set.  The chain replaces the empty local chain,
    and the hash of the block does not end in 0. *)
Lemma flagged_peer_block_lacks_zeros :
  accepted 8 FromPeer (start mixed) peerBlock
    (set_blockChain (start mixed) [peerBlock])
  /\ isNoOpBlock peerBlock = false
  /\ blockHash peerBlock = "78a06268f910d8f89ac0f311fced4f6a"
  /\ ~ trailingZeros (blockHash peerBlock)
         (difficultyByOps (start mixed) peerBlock).
Proof.
  split; [| split; [| split]].
  - apply (accepted_received 8 (start mixed) [peerBlock]).
    + by_evaluation.
    + vm_compute. discriminate.
    + left. reflexivity.
  - reflexivity.
  - by_evaluation.
  - apply hasNZeros_false. by_evaluation.
Qed.

(** C1, witness: the second block mined at difficulty 1. *)
Lemma accepted_block_has_zeros_witness :
  exists blk g',
    generateNoOpBlock 64 (afterBlocks hard 1) myPubKeyStr = Returned (blk, g')
    /\ trailingZeros (blockHash blk) (difficultyOf (afterBlocks hard 1) blk)
    /\ NoOpBlock blk = isNoOpBlock blk.
Proof.
  destruct (generateNoOpBlock 64 (afterBlocks hard 1) myPubKeyStr)
    as [[blk g']| |] eqn:E;
    [| vm_compute in E; discriminate E | vm_compute in E; discriminate E].
  exists blk, g'. split; [reflexivity |].
  assert (Z.of_nat 64 <= 2 ^ 32) as Hf by (vm_compute; discriminate).
  assert (blockChain (afterBlocks hard 1) <> []) as Hne
    by (vm_compute; discriminate).
  destruct (accepted_block_has_zeros 64 MinedHere (afterBlocks hard 1) blk _ Hf
              (accepted_mined 64 _ _ _ _ Hne E)) as [Hz Hflag].
  split; [exact Hz | apply Hflag; discriminate].
Defined.

(** The first block is appended with nonce 0 and no search: at difficulty
    1 its hash does not end in 0, and the chain it forms does not pass
    [validateBlockChain]. *)
Lemma first_block_skips_proof_of_work :
  mineNoOpBlocks 64 (start hard) myPubKeyStr = Returned (afterBlocks hard 1)
  /\ blockChain (afterBlocks hard 1) = [firstBlock (afterBlocks hard 1)]
  /\ Nonce (firstBlock (afterBlocks hard 1)) = 0
  /\ blockHash (firstBlock (afterBlocks hard 1))
     = "0a946181a9549e77cfdb0dd9944492be"
  /\ validateBlockChain 64 (afterBlocks hard 1) (blockChain (afterBlocks hard 1))
     = Some false.
Proof. conjuncts; by_evaluation. Qed.

(** C2, failing run.  Ten units of ink for each block.  After four
    iterations of the loop of [main], [currInkMined] is 30.  [AddShape]
    with a shape that costs 21 replies with 9 units remaining and writes
    the account (mined 40, spent 21, remaining 9), which is not
    balanced. *)
Lemma AddShape_unbalances_account :
  let g := afterBlocks easy 4 in
  let g' := afterShape 21 "artP" g in
  currInkMined g = 30
  /\ (exists lastOne reply,
        AddShape 64 (flatCost 21) g (triangle "artP")
        = Returned (g', AddShapeWaits lastOne reply)
        /\ InkRemaining reply = 9)
  /\ accountsOf g' (lastBlock g') !! myKeyPairInString g'
     = Some {| inkMined := 40; inkSpent := 21; inkRemain := 9 |}
  /\ ~ accountBalanced {| inkMined := 40; inkSpent := 21; inkRemain := 9 |}.
Proof.
  split; [by_evaluation |].
  split; [eexists _, _; split; by_evaluation |].
  split; [by_evaluation |].
  unfold accountBalanced. simpl. lia.
Qed.

(** The same with one key string throughout, when [AddShape] runs after
    a block was mined and before [currInkMined] was refreshed: the account
    written is (mined 20, spent 5, remaining 5). *)
Lemma stale_ink_unbalances_account :
  let g' := afterShape 5 "artP" sameKeyStale in
  main_iteration 64 (start easy) "<nil><nil>" = Returned sameKeyOnce
  /\ mineNoOpBlocks 64 sameKeyOnce "<nil><nil>" = Returned sameKeyStale
  /\ currInkMined sameKeyStale = 10
  /\ accountsOf g' (lastBlock g') !! myKeyPairInString g'
     = Some {| inkMined := 20; inkSpent := 5; inkRemain := 5 |}.
Proof. conjuncts; by_evaluation. Qed.

(** C3, failing run.  In the run of C2 the miner answers the request of
    the library with the two hashes and 9 units of ink remaining and a nil
    error; the library returns a nil error, two empty strings and 0. *)
Lemma AddShape_reply_is_dropped :
  let g := afterBlocks easy 4 in
  let c := canvasOn 64 (flatCost 21) g "3081a40201010430" "artP" in
  let r := BlockArtLib.AddShape c 2 0 "M 0 0 l 10 0 l 0 10 z" "filled" "red" in
  (exists args,
     BlockArtLib.ret_sent r = [BlockArtLib.InkMinerRPC_AddShape args]
     /\ serve_AddShape 64 (flatCost 21) g args
        = ({| BlockArtLib.ShapeHash := "e75e711fdfb90e11bf778e5a334126bf";
              BlockArtLib.BlockHash := "fabb1101277bdc1f21f84e9d4e2c4196";
              BlockArtLib.InkRemaining := 9 |}, None))
  /\ BlockArtLib.ret_err r = None
  /\ BlockArtLib.ret_shapeHash r = EmptyString
  /\ BlockArtLib.ret_blockHash r = EmptyString
  /\ BlockArtLib.ret_inkRemaining r = 0.
Proof.
  intros g c r. split.
  - exists {| BlockArtLib.ValidateNum := 1; BlockArtLib.SType := 0;
              BlockArtLib.ShapeSvgString := "M 0 0 l 10 0 l 0 10 z";
              BlockArtLib.Fill := "filled"; BlockArtLib.Stroke := "red";
              BlockArtLib.ArtNodePK := "artP" |}.
    split; by_evaluation.
  - conjuncts; by_evaluation.
Qed.

(** C4, counterexample.  For a block of index 1 and nonce 5 the bytes
    that are hashed are not the specified serialization, and the hash of
    the block is not the MD5 of the specified serialization. *)
Lemma spec_serialization_differs :
  specSerialization goodFirst <> codeSerialization goodFirst (Nonce goodFirst)
  /\ blockHash goodFirst = "ab7543a835d7df22105355b3560ba720"
  /\ specBlockHash goodFirst <> blockHash goodFirst.
Proof.
  split; [intros H; vm_compute in H; discriminate H |].
  split; [by_evaluation |].
  intros H; vm_compute in H; discriminate H.
Qed.

(** C4, witness: the index 2 is hashed as the byte 2. *)
Lemma block_hash_serialization_witness :
  bytes_of_string (string_of_int (Index goodSecond)) = [2].
Proof.
  apply (proj2 (proj2 (block_hash_serialization goodSecond))).
  simpl. lia.
Defined.

(** C5, counterexample.  At difficulty 1, the local chain is the chain
    of two linked blocks.  A chain of three copies of its first block, of
    which none names the block before it, is strictly longer and replaces
    the local chain: the three blocks have index 1, and the parent link of
    such a block is not compared.  And on the empty local chain, a chain
    of one block whose hash ends in a zero at its stored nonce 26 passes
    validation as the specification words it and does not replace the
    local chain, since the hash of the block ends in a zero at the nonce 5
    already. *)
Lemma unlinked_chain_replaces_local_chain :
  let g := set_blockChain (start hard) goodChain in
  let unlinked := [goodFirst; goodFirst; goodFirst] in
  let late := [with_Nonce goodFirst 26] in
  (everyBlockNamesParent (blockChain g)
   /\ strictlyLonger g unlinked
   /\ ~ everyBlockNamesParent unlinked
   /\ ~ chainValidAsWorded g unlinked
   /\ SendBlockchain 8 g unlinked = Some (set_blockChain g unlinked))
  /\ (strictlyLonger (start hard) late
      /\ chainValidAsWorded (start hard) late
      /\ SendBlockchain 8 (start hard) late = Some (start hard)).
Proof.
  intros g unlinked late.
  assert (~ everyBlockNamesParent unlinked) as Hn.
  { intros [H _]. vm_compute in H. discriminate H. }
  split.
  - split; [split; [by_evaluation | exact I] |].
    split; [unfold strictlyLonger; simpl; lia |].
    split; [exact Hn |].
    split; [intros [H _]; exact (Hn H) | by_evaluation].
  - split; [unfold strictlyLonger; simpl; lia |].
    split; [| by_evaluation].
    split; [exact I |].
    split; [apply List.Forall_cons;
            [apply hasNZeros_spec; by_evaluation | exact (List.Forall_nil _)] |].
    split; [apply List.Forall_cons;
            [exact (List.Forall_nil _) | exact (List.Forall_nil _)] |].
    apply validateSufficientInkAll_spec. by_evaluation.
Qed.

Lemma goodChain_valid : chainValid (start hard) goodChain.
Proof.
  split; [| split; [| split]].
  - simpl. split; [intros H; vm_compute in H; discriminate H |].
    split; [intros _; by_evaluation | exact I].
  - unfold goodChain.
    apply List.Forall_cons; [| apply List.Forall_cons;
                                 [| exact (List.Forall_nil _)]];
      (split; [| split]).
    + intros H. vm_compute in H; discriminate H.
    + apply hasNZeros_spec. by_evaluation.
    + intros k Hk. apply hasNZeros_false.
      change (Nonce goodFirst) with 5 in Hk.
      assert (k = 0 \/ k = 1 \/ k = 2 \/ k = 3 \/ k = 4) as Hc by lia.
      destruct Hc as [->|[->|[->|[->| ->]]]]; by_evaluation.
    + intros _. apply hasNZeros_spec. by_evaluation.
    + apply hasNZeros_spec. by_evaluation.
    + intros k Hk. apply hasNZeros_false.
      change (Nonce goodSecond) with 5 in Hk.
      assert (k = 0 \/ k = 1 \/ k = 2 \/ k = 3 \/ k = 4) as Hc by lia.
      destruct Hc as [->|[->|[->|[->| ->]]]]; by_evaluation.
  - unfold goodChain.
    apply List.Forall_cons; [exact (List.Forall_nil _) |].
    apply List.Forall_cons; [| exact (List.Forall_nil _)].
    unfold opSignatures.
    apply List.Forall_cons; [by_evaluation | exact (List.Forall_nil _)].
  - intros miner Hin. simpl in Hin.
    destruct Hin as [<-|[<-|[]]]; vm_compute; discriminate.
Defined.

(** C5, witness: a chain of two blocks at difficulty 1, the second with
    an operation, replaces the empty local chain. *)
Lemma SendBlockchain_replaces_iff_witness :
  strictlyLonger (start hard) goodChain
  /\ chainValid (start hard) goodChain
  /\ exists fuel,
       SendBlockchain fuel (start hard) goodChain
       = Some (set_blockChain (start hard) goodChain).
Proof.
  assert (Forall nonceInRange goodChain) as Hr
    by (unfold goodChain, nonceInRange;
        apply List.Forall_cons; [simpl; lia |];
        apply List.Forall_cons; [simpl; lia | exact (List.Forall_nil _)]).
  assert (strictlyLonger (start hard) goodChain) as Hl
    by (unfold strictlyLonger; simpl; lia).
  split; [exact Hl |]. split; [exact goodChain_valid |].
  exact (proj1 (SendBlockchain_replaces_iff (start hard) goodChain Hr)
           (conj Hl goodChain_valid)).
Defined.

(** C6, failing run.  The first block is on the chain after one
    iteration of the loop of [main].  Mining the second block appends a
    block and changes the ink accounts that the first block shows;
    [AddShape] then appends a block and changes the ink accounts and the
    canvas operations that the first block shows. *)
Lemma mining_rewrites_earlier_block :
  let g1 := afterBlocks easy 1 in
  let g2 := afterBlocks easy 2 in
  let g3 := afterShape 5 "artP" g2 in
  let first := firstBlock g1 in
  main_iteration 64 g1 myPubKeyStr = Returned g2
  /\ blockChain g2 = (blockChain g1 ++ [lastBlock g2])%list
  /\ blockChain g3 = (blockChain g2 ++ [lastBlock g3])%list
  /\ head (blockChain g1) = Some first
  /\ head (blockChain g2) = Some first
  /\ head (blockChain g3) = Some first
  /\ accountsOf g1 first !! myPubKeyStr = None
  /\ accountsOf g2 first !! myPubKeyStr
     = Some {| inkMined := 10; inkSpent := 0; inkRemain := 10 |}
  /\ accountsOf g2 first !! myKeyPairInString g2 = None
  /\ accountsOf g3 first !! myKeyPairInString g3
     = Some {| inkMined := 20; inkSpent := 5; inkRemain := 5 |}
  /\ canvasOperationsOf g2 first !! myKeyPairInString g2 = None
  /\ exists ops, canvasOperationsOf g3 first !! myKeyPairInString g3 = Some ops
                 /\ List.length ops = 1%nat.
Proof.
  conjuncts; try by_evaluation.
  eexists. split; by_evaluation.
Qed.

(** C7, witness: a path of 129 bytes is refused before anything is sent,
    a path of 128 bytes is not refused for its length. *)
Lemma AddShape_length_check_witness :
  String.length path129 = 129%nat
  /\ String.length path128 = 128%nat
  /\ (forall c v t fill stroke,
        BlockArtLib.ret_err (BlockArtLib.AddShape c v t path129 fill stroke)
        = Some (BlockArtLib.ShapeSvgStringTooLongError path129)
        /\ BlockArtLib.ret_sent (BlockArtLib.AddShape c v t path129 fill stroke)
           = [])
  /\ (forall c v t fill stroke e,
        BlockArtLib.ret_err (BlockArtLib.AddShape c v t path128 fill stroke)
        <> Some (BlockArtLib.ShapeSvgStringTooLongError e)).
Proof.
  split; [reflexivity |]. split; [reflexivity |]. split.
  - intros c v t fill stroke.
    rewrite (proj1 (AddShape_length_check c v t path129 fill stroke));
      [split; reflexivity |].
    apply Nat.ltb_lt. reflexivity.
  - intros c v t fill stroke e.
    apply (proj2 (AddShape_length_check c v t path128 fill stroke)).
    apply Nat.leb_le. reflexivity.
Defined.

(** C8, failing run.  The last block holds one shape, added by the art
    node [artP].  Handed the hash of that shape and the key of the caller,
    the handler of the miner answers with the owner error for [artQ] and
    with 9 units of ink for [artP].  Through the library both art nodes
    get the invalid-hash error for the empty hash. *)
Lemma DeleteShape_never_checks_owner :
  let g := afterShape 21 "artP" (afterBlocks easy 4) in
  let h := "e75e711fdfb90e11bf778e5a334126bf" in
  (exists op,
     Ops (lastBlock g) = [op] /\ OpSig op = h /\ PubKeyArtNode op = "artP")
  /\ Miner.DeleteShape g
       {| Miner.validateNum := 2; Miner.shapeHash := h;
          Miner.DelArtNodePK := "artQ" |}
     = inr (Miner.ShapeOwnerError h)
  /\ Miner.DeleteShape g
       {| Miner.validateNum := 2; Miner.shapeHash := h;
          Miner.DelArtNodePK := "artP" |}
     = inl 9
  /\ BlockArtLib.del_err
       (BlockArtLib.DeleteShape
          (canvasOn 64 (flatCost 21) g "3081a40201010430" "artQ") 2 h)
     = Some (BlockArtLib.RpcError "BlockArt: Invalid shape hash []")
  /\ BlockArtLib.del_err
       (BlockArtLib.DeleteShape
          (canvasOn 64 (flatCost 21) g "3081a40201010430" "artP") 2 h)
     = Some (BlockArtLib.RpcError "BlockArt: Invalid shape hash []").
Proof.
  split; [eexists; conjuncts; by_evaluation |].
  conjuncts; by_evaluation.
Qed.

(** C10, witness: in the run of C2 the last block has one operation.
    Asked for the hash of that block with an empty slice, [GetShapes]
    ends in an index out of range; with a slice of two elements it
    returns with the signature stored in the first element and the second
    as it was, and the block it read is the one selected.  Once a further
    block is mined, the block with the operation is the one before the
    highest block that names the hash asked for, and the same holds. *)
Lemma GetShapes_never_grows_reply_witness :
  let g := afterShape 21 "artP" (afterBlocks easy 4) in
  let asked := "fabb1101277bdc1f21f84e9d4e2c4196" in
  let sig := "e75e711fdfb90e11bf778e5a334126bf" in
  List.length (Ops (lastBlock g)) = 1%nat
  /\ GetShapes 64 g asked [] = Panicked
  /\ GetShapes 64 g asked ["x"; "y"] = Returned (inl [sig; "y"])
  /\ (exists b,
        selects g asked asked b
        /\ (List.length (Ops b) <= 2)%nat
        /\ [sig; "y"]
           = (map OpSig (Ops b) ++ drop (List.length (Ops b)) ["x"; "y"])%list)
  /\ GetShapes 64 shapeConfirmed (BlockHash shapeReply) [] = Panicked
  /\ GetShapes 64 shapeConfirmed (BlockHash shapeReply) ["x"; "y"]
     = Returned (inl [ShapeHash shapeReply; "y"]).
Proof.
  intros g asked sig.
  assert (last (blockChain g) = Some (lastBlock g)) as Hlast
    by by_evaluation.
  assert (calculateHash 64 (lastBlock g) (difficultyOf g (lastBlock g))
          = Some (asked, "0")) as Hcalc
    by by_evaluation.
  destruct (GetShapes_never_grows_reply 64 g asked [] _ _ _ Hlast Hcalc)
    as (Hshort & _ & _).
  destruct (GetShapes_never_grows_reply 64 g asked ["x"; "y"] _ _ _
              Hlast Hcalc) as (_ & Hroom & Hback).
  assert (selects g asked asked (lastBlock g)) as Hsel
    by (apply selects_last; [exact Hlast | reflexivity]).
  assert (GetShapes 64 g asked ["x"; "y"] = Returned (inl [sig; "y"])) as Hret.
  { rewrite (Hroom (lastBlock g) Hsel ltac:(vm_compute; lia)).
    by_evaluation. }
  split; [by_evaluation |].
  split; [apply (Hshort (lastBlock g) Hsel); vm_compute; lia |].
  split; [exact Hret |].
  split.
  { destruct (Hback [sig; "y"] Hret) as (b & Hb & Hlen & _ & Hw).
    exists b. split; [exact Hb |]. split; [exact Hlen | exact Hw]. }
  assert (last (blockChain shapeConfirmed) = Some (lastBlock shapeConfirmed))
    as Hlast' by by_evaluation.
  assert (calculateHash 64 (lastBlock shapeConfirmed)
            (difficultyOf shapeConfirmed (lastBlock shapeConfirmed))
          = Some ("d7661d6cd95992b7df03cb2a258b1838", "0")) as Hcalc'
    by by_evaluation.
  assert (selects shapeConfirmed "d7661d6cd95992b7df03cb2a258b1838"
            (BlockHash shapeReply) (lastBlock shapeAdded)) as Hsel'.
  { apply (selects_parent _ _ _ 2%nat (lastBlock shapeConfirmed)).
    - vm_compute. discriminate.
    - by_evaluation.
    - by_evaluation.
    - intros k c Hk Hc. apply lookup_lt_Some in Hc.
      revert Hc. vm_compute. lia.
    - by_evaluation. }
  destruct (GetShapes_never_grows_reply 64 shapeConfirmed
              (BlockHash shapeReply) [] _ _ _ Hlast' Hcalc')
    as (Hshort' & _ & _).
  destruct (GetShapes_never_grows_reply 64 shapeConfirmed
              (BlockHash shapeReply) ["x"; "y"] _ _ _ Hlast' Hcalc')
    as (_ & Hroom' & _).
  split.
  - apply (Hshort' (lastBlock shapeAdded) Hsel'). vm_compute. lia.
  - rewrite (Hroom' (lastBlock shapeAdded) Hsel' ltac:(vm_compute; lia)).
    by_evaluation.
Defined.


(** * Further properties of the code *)

(** ** The difficulty test and the nonce search *)

Lemma Repeat_length (s : string) (n : nat) :
  String.length (Repeat s n) = (n * String.length s)%nat.
Proof.
  induction n as [|n IH]; simpl; [reflexivity |].
  rewrite length_append, IH. reflexivity.
Qed.

Lemma Repeat_zero_S (n : nat) :
  Repeat "0" (S n) = String.append "0" (Repeat "0" n).
Proof. reflexivity. Qed.

Lemma hasNZeros_nonpositive (hash : string) (n : Z) :
  n <= 0 -> hasNZeros hash n = true.
Proof.
  intros Hn. apply hasNZeros_spec. exists hash.
  replace (Z.to_nat n) with O by lia. simpl. now rewrite append_nil_r.
Qed.

Lemma hasNZeros_too_long (hash : string) (n : Z) :
  Z.of_nat (String.length hash) < n -> hasNZeros hash n = false.
Proof.
  intros Hn. apply hasNZeros_false. intros [p Hp].
  apply (f_equal String.length) in Hp.
  rewrite length_append, Repeat_length in Hp. simpl in Hp. lia.
Qed.

(** X1.  [hasNZeros hash n] holds exactly when [hash] ends in [n]
    characters [0].  So it holds for every hash when [n] is 0, it fails
    when [n] is more than the length of the hash, and a hash that passes
    for [n + 1] passes for [n]. *)
Theorem hasNZeros_suffix (hash : string) (n : Z) :
  (hasNZeros hash n = true
   <-> exists p, hash = String.append p (Repeat "0" (Z.to_nat n)))
  /\ (n <= 0 -> hasNZeros hash n = true)
  /\ (Z.of_nat (String.length hash) < n -> hasNZeros hash n = false)
  /\ (0 <= n -> hasNZeros hash (n + 1) = true -> hasNZeros hash n = true).
Proof.
  split; [apply hasNZeros_spec |]. split; [| split].
  - apply hasNZeros_nonpositive.
  - apply hasNZeros_too_long.
  - intros Hn H. apply hasNZeros_spec in H as [p Hp]. apply hasNZeros_spec.
    replace (Z.to_nat (n + 1)) with (S (Z.to_nat n)) in Hp by lia.
    rewrite Repeat_zero_S, <- append_assoc in Hp.
    exists (String.append p "0"). exact Hp.
Qed.

Lemma hasNZeros_suffix_witness :
  hasNZeros "41965411511fd529ed20daccc4e28a90" 0 = true
  /\ hasNZeros "41965411511fd529ed20daccc4e28a90" 33 = false
  /\ hasNZeros "ab7543a835d7df2210535500" 1 = true.
Proof.
  split; [| split].
  - apply (proj1 (proj2 (hasNZeros_suffix _ 0))). lia.
  - apply (proj1 (proj2 (proj2 (hasNZeros_suffix _ 33)))). simpl. lia.
  - apply (proj2 (proj2 (proj2 (hasNZeros_suffix _ 1)))); [lia | reflexivity].
Defined.

(** X2.  Within 2^63 steps, [calculateHash] returns a hash and a nonce
    exactly when the nonce is the decimal form of the least number [k],
    counted from 0 and below the step budget, at which the MD5 of the
    block string followed by [k] in decimal ends in the zeros asked for,
    and the hash is that MD5. *)
Theorem calculateHash_least_nonce (fuel : nat) (b : Block) (d : Z)
  (h n : string) :
  Z.of_nat fuel <= 2 ^ 63 ->
  (calculateHash fuel b d = Some (h, n)
   <-> exists k, 0 <= k < Z.of_nat fuel
         /\ n = FormatInt k
         /\ h = nonceHash b k
         /\ trailingZeros h d
         /\ forall k', 0 <= k' < k -> ~ trailingZeros (nonceHash b k') d).
Proof.
  intros Hf. unfold calculateHash. rewrite calculateHash_from_spec. split.
  - intros (m & Hm & -> & -> & Hz & Hmin). exists (Z.of_nat m).
    rewrite counter_zero in * by lia.
    split; [lia |]. split; [reflexivity |]. split; [reflexivity |].
    split; [apply hasNZeros_spec; exact Hz |].
    intros k' Hk'. apply hasNZeros_false.
    specialize (Hmin (Z.to_nat k') ltac:(lia)).
    rewrite counter_zero in Hmin by lia. rewrite Z2Nat.id in Hmin by lia.
    exact Hmin.
  - intros (k & Hk & -> & -> & Hz & Hmin). exists (Z.to_nat k).
    rewrite counter_zero by lia. rewrite Z2Nat.id by lia.
    split; [lia |]. split; [reflexivity |]. split; [reflexivity |].
    split; [apply hasNZeros_spec; exact Hz |].
    intros m' Hm'. rewrite counter_zero by lia.
    apply hasNZeros_false. apply Hmin. lia.
Qed.

Lemma calculateHash_least_nonce_witness :
  calculateHash 64 goodSecond 1
  = Some ("41965411511fd529ed20daccc4e28a90", "5")
  /\ exists k, 0 <= k < 64 /\ "5" = FormatInt k
       /\ forall k', 0 <= k' < k -> ~ trailingZeros (nonceHash goodSecond k') 1.
Proof.
  assert (calculateHash 64 goodSecond 1
          = Some ("41965411511fd529ed20daccc4e28a90", "5")) as E
    by by_evaluation.
  split; [exact E |].
  assert (Z.of_nat 64 <= 2 ^ 63) as Hf by (vm_compute; discriminate).
  destruct (proj1 (calculateHash_least_nonce 64 goodSecond 1 _ _ Hf) E)
    as (k & Hk & Hn & _ & _ & Hmin).
  exists k. split; [exact Hk |]. split; [exact Hn | exact Hmin].
Defined.

(** X3.  At difficulty 0 the search ends at its first step, with the
    nonce 0: a block is mined at once. *)
Theorem calculateHash_zero_difficulty (fuel : nat) (b : Block) (d : Z) :
  d <= 0 ->
  calculateHash (S fuel) b d = Some (nonceHash b 0, "0").
Proof.
  intros Hd. unfold calculateHash. simpl.
  change (FormatInt 0) with "0".
  assert (hasNZeros (computeNonceSecretHash (blkToString b) "0") d = true) as ->.
  { apply hasNZeros_nonpositive. exact Hd. }
  reflexivity.
Qed.

Lemma calculateHash_zero_difficulty_witness :
  calculateHash 1 goodFirst 0 = Some (nonceHash goodFirst 0, "0").
Proof. apply (calculateHash_zero_difficulty 0 goodFirst 0). lia. Defined.

Lemma bytes_le_length (n : nat) (x : Z) : List.length (MD5.bytes_le n x) = n.
Proof.
  revert x. induction n as [|n IH]; intros x; simpl; [reflexivity |].
  now rewrite IH.
Qed.

Lemma MD5_sum_length (msg : list Z) : List.length (MD5.sum msg) = 16%nat.
Proof.
  unfold MD5.sum.
  destruct (MD5.blocks _ _ _) as [[[A B] C] D].
  rewrite !length_app, !bytes_le_length. reflexivity.
Qed.

Lemma hex_EncodeToString_length (bs : list Z) :
  String.length (hex_EncodeToString bs) = (2 * List.length bs)%nat.
Proof.
  induction bs as [|b bs IH]; simpl; [reflexivity |]. rewrite IH. lia.
Qed.

(** Every hash is 32 characters long. *)
Lemma computeNonceSecretHash_length (nonce secret : string) :
  String.length (computeNonceSecretHash nonce secret) = 32%nat.
Proof.
  unfold computeNonceSecretHash.
  rewrite hex_EncodeToString_length, MD5_sum_length. reflexivity.
Qed.

Lemma calculateHash_from_too_hard fuel bs d j :
  32 < d -> calculateHash_from fuel bs d j = None.
Proof.
  intros Hd. revert j. induction fuel as [|fuel IH]; intros j; simpl;
    [reflexivity |].
  assert (hasNZeros (computeNonceSecretHash bs (FormatInt j)) d = false) as ->.
  { apply hasNZeros_too_long.
    rewrite computeNonceSecretHash_length. simpl. lia. }
  apply IH.
Qed.

(** X4.  A hash has 32 characters, so at a difficulty above 32 no nonce
    passes: [calculateHash] ends within no step budget, and on a chain
    that is not empty [generateNoOpBlock] never returns when the no-op
    difficulty is above 32 (the settings allow up to 255): its search
    ends within no step budget, unless the ink map of the last block is
    nil and the first search ends, in which case it panics. *)
Theorem difficulty_above_32_never_ends (fuel : nat) (g : Globals) (b : Block)
  (d : Z) (minerPubKey : string) :
  (32 < d -> calculateHash fuel b d = None)
  /\ (32 < PoWDifficultyNoOpBlock (settings g) -> blockChain g <> [] ->
      (forall r, generateNoOpBlock fuel g minerPubKey <> Returned r)
      /\ forall lastBlk,
           last (blockChain g) = Some lastBlk ->
           allocated (inkMaps g) (MinerInks lastBlk) = true ->
           generateNoOpBlock fuel g minerPubKey = Exhausted).
Proof.
  split.
  - intros Hd. unfold calculateHash. now apply calculateHash_from_too_hard.
  - intros Hd Hne. unfold generateNoOpBlock.
    destruct (last (blockChain g)) as [lastBlk|] eqn:El;
      [| apply last_None in El; contradiction].
    destruct (calculateHash fuel lastBlk (difficultyOf g lastBlk))
      as [[lh ln]|].
    + unfold calculateHash.
      rewrite !calculateHash_from_too_hard by exact Hd.
      split.
      * intros r.
        destruct (allocated (inkMaps g) (MinerInks lastBlk)); discriminate.
      * intros lastBlk' [= <-] Ha. rewrite Ha. reflexivity.
    + split; [intros r; discriminate | intros lastBlk' _ _; reflexivity].
Qed.

Lemma difficulty_above_32_never_ends_witness :
  calculateHash 50 goodFirst 33 = None
  /\ generateNoOpBlock 50 (afterBlocks (netSettings 0 33 10 10) 1) myPubKeyStr
     = Exhausted.
Proof.
  split.
  - apply (proj1 (difficulty_above_32_never_ends 50 (start easy) goodFirst 33
                    myPubKeyStr)). lia.
  - apply (proj2 (proj2 (difficulty_above_32_never_ends 50
                           (afterBlocks (netSettings 0 33 10 10) 1)
                           goodFirst 33 myPubKeyStr)
                    ltac:(vm_compute; reflexivity)
                    ltac:(vm_compute; discriminate))
             (lastBlock (afterBlocks (netSettings 0 33 10 10) 1))).
    + by_evaluation.
    + by_evaluation.
Defined.

(** ** Ink totals and the ink check of a received chain *)

Lemma sumZ_filter_Permutation (h : Block -> Z) (p : Block -> bool)
  (bc bc' : list Block) :
  Permutation bc bc' ->
  sumZ (map h (List.filter p bc)) = sumZ (map h (List.filter p bc')).
Proof.
  induction 1 as [| x l l' _ IH | x y l | l l' l'' _ IH1 _ IH2]; simpl.
  - reflexivity.
  - destruct (p x); simpl; lia.
  - destruct (p x), (p y); simpl; lia.
  - lia.
Qed.

Lemma sumZ_no_ops (miner : string) (bc : list Block) :
  Forall (fun b => Ops b = []) bc ->
  sumZ (map (fun b => 30 * Z.of_nat (List.length (Ops b)))
          (List.filter (producedBy miner) bc)) = 0.
Proof.
  induction 1 as [| b rest Hb _ IH]; simpl; [reflexivity |].
  destruct (producedBy miner b); simpl; [rewrite Hb; simpl |]; lia.
Qed.

Lemma filter_not_produced (miner : string) (bc : list Block) :
  ~ In miner (map PubKeyMiner bc) -> List.filter (producedBy miner) bc = [].
Proof.
  induction bc as [| b rest IH]; simpl; [reflexivity |].
  intros H. unfold producedBy at 1.
  destruct (String.eqb_spec miner (PubKeyMiner b)) as [E | _].
  - exfalso. apply H. left. symmetry. exact E.
  - apply IH. intros Hin. apply H. right. exact Hin.
Qed.

(** X5.  The cost of a list of operations is 30 for each operation, in
    32-bit arithmetic.  The totals that [totalInkSpentAndMinedByMiner]
    returns for a miner are the sums, in 32-bit arithmetic, of that cost
    and of the block rewards over the blocks of the chain that the miner
    produced; for a miner that produced no block of the chain both totals
    are 0. *)
Theorem chain_ink_totals (g : Globals) (bc : list Block) (miner : string) :
  (forall ops,
     costOfOperations ops = (30 * Z.of_nat (List.length ops)) mod 2 ^ 32)
  /\ totalInkSpentAndMinedByMiner g bc miner
     = (inkSpentBy bc miner, inkMinedBy g bc miner)
  /\ (~ In miner (map PubKeyMiner bc) ->
      totalInkSpentAndMinedByMiner g bc miner = (0, 0)).
Proof.
  split; [| split].
  - intros ops. apply costOfOperations_spec.
  - apply totalInkSpentAndMinedByMiner_spec.
  - intros H. rewrite totalInkSpentAndMinedByMiner_spec.
    unfold inkSpentBy, inkMinedBy. rewrite (filter_not_produced _ _ H).
    reflexivity.
Qed.

Lemma chain_ink_totals_witness :
  totalInkSpentAndMinedByMiner (start hard) goodChain "other" = (0, 0).
Proof.
  apply (chain_ink_totals (start hard) goodChain "other").
  simpl. intros [H | [H | []]]; discriminate H.
Defined.

Lemma minersInBlockChain_from_NoDup (acc : list string) (bc : list Block) :
  List.NoDup acc -> List.NoDup (minersInBlockChain_from acc bc).
Proof.
  revert acc. induction bc as [| blk rest IH]; intros acc Hacc; simpl.
  - exact Hacc.
  - destruct (contains acc (PubKeyMiner blk)) eqn:E; simpl.
    + apply IH. exact Hacc.
    + apply IH. apply List.NoDup_app.
      * exact Hacc.
      * constructor; [intros [] | constructor].
      * intros x Hx [<- | []]. apply contains_spec in Hx. congruence.
Qed.

(** X6.  [minersInBlockChain] lists each producer of a block of the chain,
    and lists it once. *)
Theorem minersInBlockChain_distinct (bc : list Block) :
  List.NoDup (minersInBlockChain bc)
  /\ forall miner,
       In miner (minersInBlockChain bc) <-> In miner (map PubKeyMiner bc).
Proof.
  split.
  - apply minersInBlockChain_from_NoDup. constructor.
  - intros miner. unfold minersInBlockChain.
    rewrite minersInBlockChain_from_spec. simpl. tauto.
Qed.

Lemma minedAtLeastSpent_Permutation (g : Globals) (bc bc' : list Block) :
  Permutation bc bc' -> minedAtLeastSpent g bc -> minedAtLeastSpent g bc'.
Proof.
  intros Hp H miner Hin. unfold inkSpentBy, inkMinedBy.
  rewrite <- (sumZ_filter_Permutation _ _ _ _ Hp).
  rewrite <- (sumZ_filter_Permutation (reward g) _ _ _ Hp).
  apply H. apply (Permutation_in _ (Permutation_sym (Permutation_map _ Hp))).
  exact Hin.
Qed.

(** X7.  The ink check of a received chain compares, for each producer, the
    totals over the whole chain: its answer does not depend on the order of
    the blocks, so a chain in which a miner spends ink in a block before
    the blocks that earn it passes as the chain in the other order does. *)
Theorem validateSufficientInkAll_any_order (g : Globals)
  (bc bc' : list Block) :
  Permutation bc bc' ->
  validateSufficientInkAll g bc = validateSufficientInkAll g bc'.
Proof.
  intros Hp. apply eq_true_iff_eq.
  rewrite !validateSufficientInkAll_spec. split.
  - apply minedAtLeastSpent_Permutation. exact Hp.
  - apply minedAtLeastSpent_Permutation. apply Permutation_sym. exact Hp.
Qed.

Lemma validateSufficientInkAll_any_order_witness :
  validateSufficientInkAll (start hard) [goodFirst; goodSecond]
  = validateSufficientInkAll (start hard) [goodSecond; goodFirst].
Proof.
  apply (validateSufficientInkAll_any_order (start hard)
           [goodFirst; goodSecond] [goodSecond; goodFirst]).
  apply perm_swap.
Defined.

(** X8.  A chain whose blocks carry no operation passes the ink check,
    whatever the rewards are. *)
Theorem validateSufficientInkAll_no_ops (g : Globals) (bc : list Block) :
  Forall (fun b => Ops b = []) bc ->
  validateSufficientInkAll g bc = true.
Proof.
  intros H. apply validateSufficientInkAll_spec. intros miner _.
  unfold inkSpentBy, inkMinedBy. rewrite (sumZ_no_ops _ _ H).
  unfold uint32. rewrite Z.mod_0_l by lia.
  apply Z.mod_pos_bound. lia.
Qed.

Lemma validateSufficientInkAll_no_ops_witness :
  validateSufficientInkAll (start hard) [goodFirst; goodFirst] = true.
Proof.
  apply (validateSufficientInkAll_no_ops (start hard) [goodFirst; goodFirst]).
  apply List.Forall_cons; [reflexivity |].
  apply List.Forall_cons; [reflexivity |]. exact (List.Forall_nil _).
Defined.

(** ** Validation of a chain, block by block *)

Lemma parentLinks_app (hv : string) (bc bc' : list Block) :
  parentLinks hv (bc ++ bc') -> parentLinks hv bc.
Proof.
  revert hv. induction bc as [| b rest IH]; intros hv; simpl; [auto |].
  intros [Hl Hr]. split; [exact Hl | apply IH; exact Hr].
Qed.

Lemma parentLinks_low_index (hv : string) (bc : list Block) :
  Forall (fun b => Index b <= 1) bc -> parentLinks hv bc.
Proof.
  intros H. revert hv. induction H as [| b rest Hb _ IH]; intros hv; simpl.
  - exact I.
  - split; [lia | apply IH].
Qed.

(** X9.  Validation of a chain is closed under prefixes: when a chain
    passes [validateBlockChain], so does each chain that it starts
    with. *)
Theorem validateBlockChain_prefix (fuel : nat) (g : Globals)
  (bc bc' : list Block) :
  validateBlockChain fuel g (bc ++ bc') = Some true ->
  validateBlockChain fuel g bc = Some true.
Proof.
  unfold validateBlockChain. rewrite !validateBlockChain_from_true.
  intros [Hl Hc]. split.
  - apply parentLinks_app with bc'. exact Hl.
  - apply Forall_app in Hc. tauto.
Qed.

Lemma validateBlockChain_prefix_witness :
  validateBlockChain 8 (start hard) [goodFirst] = Some true.
Proof.
  apply (validateBlockChain_prefix 8 (start hard) [goodFirst] [goodSecond]).
  by_evaluation.
Defined.

(** X10.  The parent link of a block is compared only when the index of
    the block is above 1.  A chain of blocks of index at most 1 passes
    [validateBlockChain] exactly when each block passes the nonce and the
    signature check on its own, so it passes in any order of its
    blocks. *)
Theorem validateBlockChain_low_index (fuel : nat) (g : Globals)
  (bc : list Block) :
  Forall (fun b => Index b <= 1) bc ->
  (validateBlockChain fuel g bc = Some true
   <-> Forall (blockChecked fuel g) bc)
  /\ (forall bc', Permutation bc bc' ->
        validateBlockChain fuel g bc = Some true ->
        validateBlockChain fuel g bc' = Some true).
Proof.
  intros Hi. unfold validateBlockChain. split.
  - rewrite validateBlockChain_from_true. split; [tauto |].
    intros Hc. split; [apply parentLinks_low_index; exact Hi | exact Hc].
  - intros bc' Hp. rewrite !validateBlockChain_from_true. intros [_ Hc].
    split.
    + apply parentLinks_low_index. rewrite <- Hp. exact Hi.
    + rewrite <- Hp. exact Hc.
Qed.

Lemma validateBlockChain_low_index_witness :
  validateBlockChain 8 (start mixed) [with_Nonce goodFirst 0; peerBlock]
  = Some true.
Proof.
  apply (proj2 (validateBlockChain_low_index 8 (start mixed)
                  [peerBlock; with_Nonce goodFirst 0]
                  ltac:(apply List.Forall_cons; [simpl; lia |];
                        apply List.Forall_cons; [simpl; lia |];
                        exact (List.Forall_nil _)))).
  - apply perm_swap.
  - by_evaluation.
Defined.

(** ** Mining a block *)

(** X11.  [mineNoOpBlocks] puts exactly one block at the end of the chain
    and keeps the blocks before it.  The block has index 1 whatever the
    length of the chain, has no operation, and names as its producer the
    string of the package-level key, not the key that was passed.  On the
    empty chain it names the genesis hash and has nonce 0; otherwise it
    names the hash that the nonce search finds for the last block, which
    ends in the zeros of the difficulty of that block, and it holds the
    three maps of the last block. *)
Theorem mineNoOpBlocks_appends (fuel : nat) (g : Globals)
  (minerPubKey : string) (g' : Globals) :
  mineNoOpBlocks fuel g minerPubKey = Returned g' ->
  exists blk,
    blockChain g' = (blockChain g ++ [blk])%list
    /\ Index blk = 1 /\ Ops blk = [] /\ NoOpBlock blk = true
    /\ PubKeyMiner blk = getPubKeyInStr (myPrivKey g)
    /\ match last (blockChain g) with
       | None =>
           PrevHash blk = GenesisBlockHash (settings g) /\ Nonce blk = 0
       | Some lastBlk =>
           (exists n, calculateHash fuel lastBlk (difficultyOf g lastBlk)
                      = Some (PrevHash blk, n))
           /\ hasNZeros (PrevHash blk) (difficultyOf g lastBlk) = true
           /\ MinerInks blk = MinerInks lastBlk
           /\ CanvasInks blk = CanvasInks lastBlk
           /\ CanvasOperations blk = CanvasOperations lastBlk
       end.
Proof.
  unfold mineNoOpBlocks, generateNoOpBlock.
  destruct (last (blockChain g)) as [lastBlk |] eqn:El.
  - destruct (calculateHash fuel lastBlk (difficultyOf g lastBlk))
      as [[lh ln] |] eqn:E1; [| discriminate].
    destruct (allocated (inkMaps g) (MinerInks lastBlk)); cbn [negb];
      [| discriminate].
    case_search h n E. intros [= <-].
    eexists. split; [reflexivity |]. simpl.
    split; [reflexivity |]. split; [reflexivity |]. split; [reflexivity |].
    split; [reflexivity |]. split; [exists ln; reflexivity |].
    split; [exact (calculateHash_zeros _ _ _ _ _ E1) |].
    split; [reflexivity |]. split; reflexivity.
  - intros [= <-]. eexists. split; [reflexivity |]. simpl.
    split; [reflexivity |]. split; [reflexivity |]. split; [reflexivity |].
    split; [reflexivity |]. split; reflexivity.
Qed.

Lemma mineNoOpBlocks_appends_witness :
  exists blk,
    blockChain sameKeyStale = (blockChain sameKeyOnce ++ [blk])%list
    /\ Index blk = 1.
Proof.
  destruct (mineNoOpBlocks_appends 64 sameKeyOnce "<nil><nil>" sameKeyStale
              ltac:(by_evaluation))
    as (blk & Hc & Hi & _).
  exists blk. split; [exact Hc | exact Hi].
Defined.

(** X12.  Mining on a chain that is not empty credits the reward of a no-op
    block, in 32-bit arithmetic, to the mined and the remaining ink of the
    account of the key passed, in the ink map of the last block, and keeps
    the spent ink of that account.  The other accounts of that map, the
    other ink maps, the canvas and operation maps and [currInkMined] stay
    as they were. *)
Theorem mineNoOpBlocks_account (fuel : nat) (g : Globals)
  (minerPubKey : string) (lastBlk : Block) (g' : Globals) :
  0 <= InkPerNoOpBlock (settings g) < 2 ^ 32 ->
  last (blockChain g) = Some lastBlk ->
  (MinerInks lastBlk < List.length (inkMaps g))%nat ->
  mineNoOpBlocks fuel g minerPubKey = Returned g' ->
  let r := MinerInks lastBlk in
  let before := readInk g r minerPubKey in
  readInk g' r minerPubKey
  = {| inkMined := uint32 (inkMined before + InkPerNoOpBlock (settings g));
       inkSpent := inkSpent before;
       inkRemain := uint32 (inkRemain before + InkPerNoOpBlock (settings g)) |}
  /\ (forall k, k <> minerPubKey -> readInk g' r k = readInk g r k)
  /\ (forall r', r' <> r -> inkMap g' r' = inkMap g r')
  /\ canvasMaps g' = canvasMaps g
  /\ opsMaps g' = opsMaps g
  /\ currInkMined g' = currInkMined g.
Proof.
  intros HI El Hr. unfold mineNoOpBlocks, generateNoOpBlock. rewrite El.
  destruct (calculateHash fuel lastBlk (difficultyOf g lastBlk))
    as [[lh ln] |]; [| discriminate].
  destruct (allocated (inkMaps g) (MinerInks lastBlk)); cbn [negb];
    [| discriminate].
  case_search h n E. intros [= <-]. cbv zeta.
  unfold readInk, inkMap. simpl.
  rewrite list_lookup_insert_eq by exact Hr. simpl.
  split; [| split; [| split; [| split; [| split]]]]; try reflexivity.
  - rewrite lookup_insert_eq. simpl.
    destruct (default ∅ (inkMaps g !! MinerInks lastBlk) !! minerPubKey)
      as [a |]; simpl; [reflexivity |].
    rewrite uint32_small by lia. reflexivity.
  - intros k Hk. rewrite lookup_insert_ne by congruence. reflexivity.
  - intros r' Hr'. rewrite list_lookup_insert_ne by congruence. reflexivity.
Qed.

Lemma mineNoOpBlocks_account_witness :
  readInk sameKeyStale 0%nat "<nil><nil>"
  = {| inkMined := 20; inkSpent := 0; inkRemain := 20 |}.
Proof.
  pose proof (mineNoOpBlocks_account 64 sameKeyOnce "<nil><nil>"
                (lastBlock sameKeyOnce) sameKeyStale
                ltac:(vm_compute; split; [discriminate | reflexivity])
                ltac:(by_evaluation)
                ltac:(vm_compute; lia)
                ltac:(by_evaluation)) as H.
  cbv zeta in H. destruct H as (H & _).
  vm_compute in H. vm_compute. exact H.
Defined.

(** ** The handlers of the art node *)

(** X13.  On the empty chain [AddShape] and [GetSvgString] index the chain
    out of range, whereas [DeleteShape], [GetShapes] and [GetChildren]
    return their error, [CloseCanvas] returns no operation and no ink, and
    [GetInk] returns 0 for the right key. *)
Theorem handlers_on_empty_chain (fuel : nat) (helper : SvgHelper)
  (g : Globals) :
  blockChain g = [] ->
  (forall args, AddShape fuel helper g args = Panicked)
  /\ (forall h, GetSvgString g h = Panicked)
  /\ (forall args,
        DeleteShape g args = inr (InvalidShapeHashError (shapeHash args)))
  /\ (forall h reply,
        GetShapes fuel g h reply = Returned (inr (InvalidBlockHashError h)))
  /\ (forall h, GetChildren fuel g h = Returned (inr (InvalidBlockHashError h)))
  /\ CloseCanvas g = {| ReplyOps := []; replyInkRemaining := 0 |}
  /\ GetInk g (myKeyPairInString g) = inl 0.
Proof.
  intros E.
  unfold AddShape, GetSvgString, DeleteShape, GetShapes, GetChildren,
    CloseCanvas, GetInk, minerInkRemain.
  rewrite E, String.eqb_refl. simpl. conjuncts; reflexivity.
Qed.

Lemma handlers_on_empty_chain_witness :
  AddShape 64 (flatCost 30) (start easy) (triangle "art") = Panicked
  /\ GetSvgString (start easy) "00" = Panicked.
Proof.
  destruct (handlers_on_empty_chain 64 (flatCost 30) (start easy) eq_refl)
    as (Ha & Hs & _).
  split; [apply Ha | apply Hs].
Defined.

(** X14.  Whatever [AddShape] returns, it leaves the settings, the keys
    and [currInkMined] alone, so [GetInk] answers after it as before it.
    When it returns an error it has appended no block and has written no
    ink account and no operation list. *)
Theorem AddShape_frame (fuel : nat) (helper : SvgHelper) (g : Globals)
  (args : AddShapeStruct) (g' : Globals) (r : AddShapeResult) :
  AddShape fuel helper g args = Returned (g', r) ->
  settings g' = settings g
  /\ myKeyPairInString g' = myKeyPairInString g
  /\ currInkMined g' = currInkMined g
  /\ (forall key, GetInk g' key = GetInk g key)
  /\ (forall e, r = AddShapeError e ->
        blockChain g' = blockChain g
        /\ inkMaps g' = inkMaps g /\ opsMaps g' = opsMaps g).
Proof.
  unfold AddShape.
  destruct (last (blockChain g)) as [lastBlk |] eqn:El; [| discriminate].
  assert (blockChain g <> []) as Hne
    by (intros E; rewrite E in El; discriminate).
  destruct (helper _ _ _ _ _) as [[spentInk err] canvas'].
  destruct err as [e |].
  - intros [= <- <-]. simpl.
    split; [reflexivity |]. split; [reflexivity |]. split; [reflexivity |].
    split; [intros key; reflexivity |].
    intros e' _. split; [reflexivity |]. split; reflexivity.
  - case_search preHash pn Epre.
    destruct (totalInkSpentAndMinedByMiner _ _ _) as [inkSpent0 inkMined0].
    destruct (allocated (inkMaps _) _) eqn:Ea1; cbn [negb]; [| discriminate].
    destruct (allocated (opsMaps _) _) eqn:Ea2; cbn [negb]; [| discriminate].
    case_search h n E.
    intros [= <- <-]. simpl.
    split; [reflexivity |]. split; [reflexivity |]. split; [reflexivity |].
    split; [| intros e' He'; discriminate He'].
    intros key. unfold GetInk, minerInkRemain. simpl.
    destruct (blockChain g) as [| b rest]; [contradiction | reflexivity].
Qed.

Lemma AddShape_frame_witness :
  GetInk shapeAdded "3081a40201010430"
  = GetInk (afterBlocks easy 2) "3081a40201010430".
Proof.
  destruct (AddShape_frame 64 (flatCost 5) (afterBlocks easy 2)
              (triangle "art") shapeAdded (AddShapeWaits 1 shapeReply)
              ltac:(by_evaluation)) as (_ & _ & _ & H & _).
  apply H.
Defined.

(** X15.  When [AddShape] has appended its block, the chain is the chain
    before followed by that block.  The block has the length of the chain
    before as its index, carries the operations of the block before it
    followed by the new operation, names [myKeyPairInString] as its
    producer, is not flagged as a no-op block, and holds the three maps of
    the block before it.  The new operation is signed with the shape hash
    of the reply, which is the hash of the SVG element followed by the
    string of the package-level key, and names the art node of the
    request. *)
Theorem AddShape_appends (fuel : nat) (helper : SvgHelper) (g : Globals)
  (args : AddShapeStruct) (g' : Globals) (lastOne : Z)
  (reply : AddShapeReply) :
  AddShape fuel helper g args = Returned (g', AddShapeWaits lastOne reply) ->
  exists lastBlk blk op,
    last (blockChain g) = Some lastBlk
    /\ blockChain g' = (blockChain g ++ [blk])%list
    /\ lastOne = Z.of_nat (List.length (blockChain g)) - 1
    /\ Index blk = Z.of_nat (List.length (blockChain g))
    /\ Ops blk = (Ops lastBlk ++ [op])%list
    /\ OpSig op = ShapeHash reply
    /\ PubKeyArtNode op = ArtNodePK args
    /\ ShapeHash reply
       = computeNonceSecretHash (AppShape op) (getPubKeyInStr (myPrivKey g))
    /\ PubKeyMiner blk = myKeyPairInString g
    /\ NoOpBlock blk = false
    /\ MinerInks blk = MinerInks lastBlk
    /\ CanvasInks blk = CanvasInks lastBlk
    /\ CanvasOperations blk = CanvasOperations lastBlk.
Proof.
  unfold AddShape.
  destruct (last (blockChain g)) as [lastBlk |] eqn:El; [| discriminate].
  destruct (helper _ _ _ _ _) as [[spentInk err] canvas'].
  destruct err as [e |]; [discriminate |].
  case_search preHash pn Epre.
  destruct (totalInkSpentAndMinedByMiner _ _ _) as [inkSpent0 inkMined0].
  destruct (allocated (inkMaps _) _) eqn:Ea1; cbn [negb]; [| discriminate].
  destruct (allocated (opsMaps _) _) eqn:Ea2; cbn [negb]; [| discriminate].
  case_search h n E.
  intros [= <- <- <-]. simpl.
  eexists lastBlk, _, _. split; [reflexivity |]. split; [reflexivity |].
  simpl. split; [reflexivity |]. split; [lia |].
  split; [reflexivity |]. conjuncts; reflexivity.
Qed.

Lemma AddShape_appends_witness :
  exists blk,
    blockChain shapeAdded = (blockChain (afterBlocks easy 2) ++ [blk])%list
    /\ Index blk = Z.of_nat (List.length (blockChain (afterBlocks easy 2))).
Proof.
  destruct (AddShape_appends 64 (flatCost 5) (afterBlocks easy 2)
              (triangle "art") shapeAdded 1 shapeReply ltac:(by_evaluation))
    as (lastBlk & blk & op & _ & Hc & _ & Hi & _).
  exists blk. split; [exact Hc | exact Hi].
Defined.

(** X16.  The waiting loop of [AddShape] ends exactly when at least
    [ValidateNum] more blocks stand on the chain after the block that
    [AddShape] appended. *)
Theorem AddShape_wait_counts_blocks (fuel : nat) (helper : SvgHelper)
  (g : Globals) (args : AddShapeStruct) (g' : Globals) (lastOne : Z)
  (reply : AddShapeReply) (later : Globals) (n : nat) :
  AddShape fuel helper g args = Returned (g', AddShapeWaits lastOne reply) ->
  List.length (blockChain later) = (List.length (blockChain g') + n)%nat ->
  AddShape_wait_over later lastOne (ValidateNum args) = true
  <-> ValidateNum args < Z.of_nat n + 1.
Proof.
  unfold AddShape.
  destruct (last (blockChain g)) as [lastBlk |] eqn:El; [| discriminate].
  destruct (helper _ _ _ _ _) as [[spentInk err] canvas'].
  destruct err as [e |]; [discriminate |].
  case_search preHash pn Epre.
  destruct (totalInkSpentAndMinedByMiner _ _ _) as [inkSpent0 inkMined0].
  destruct (allocated (inkMaps _) _) eqn:Ea1; cbn [negb]; [| discriminate].
  destruct (allocated (opsMaps _) _) eqn:Ea2; cbn [negb]; [| discriminate].
  case_search h n' E.
  intros [= <- <- <-]. simpl. rewrite length_app. simpl. intros Hlen.
  unfold AddShape_wait_over. rewrite Hlen, Z.ltb_lt. lia.
Qed.

Lemma AddShape_wait_counts_blocks_witness :
  AddShape_wait_over shapeConfirmed 1 (ValidateNum (triangle "art")) = true
  /\ AddShape_wait_over shapeAdded 1 (ValidateNum (triangle "art")) <> true.
Proof.
  split.
  - apply (AddShape_wait_counts_blocks 64 (flatCost 5) (afterBlocks easy 2)
             (triangle "art") shapeAdded 1 shapeReply shapeConfirmed 1
             ltac:(by_evaluation) ltac:(by_evaluation)).
    simpl. lia.
  - intros H.
    apply (AddShape_wait_counts_blocks 64 (flatCost 5) (afterBlocks easy 2)
             (triangle "art") shapeAdded 1 shapeReply shapeAdded 0
             ltac:(by_evaluation) ltac:(by_evaluation)) in H.
    simpl in H. lia.
Defined.

(** ** Looking a shape up *)

Lemma GetSvgString_scan_first (pre post : list Operation) (op : Operation)
  (h : string) :
  Forall (fun o => OpSig o <> h) pre ->
  OpSig op = h ->
  GetSvgString_scan (pre ++ op :: post) h = inl (AppShape op).
Proof.
  intros Hpre Hop. induction Hpre as [| o rest Ho _ IH]; simpl.
  - rewrite (proj2 (String.eqb_eq _ _) Hop). reflexivity.
  - rewrite (proj2 (String.eqb_neq _ _) Ho). exact IH.
Qed.

Lemma DeleteShape_scan_first (g : Globals) (lastBlk : Block)
  (args : DelShapeArgs) (pre post : list Operation) (op : Operation) :
  Forall (fun o => OpSig o <> shapeHash args) pre ->
  OpSig op = shapeHash args ->
  DeleteShape_scan g lastBlk args (pre ++ op :: post)
  = if String.eqb (DelArtNodePK args) (PubKeyArtNode op)
    then inl (inkRemain (readInk g (MinerInks lastBlk) (myKeyPairInString g)))
    else inr (ShapeOwnerError (shapeHash args)).
Proof.
  intros Hpre Hop. induction Hpre as [| o rest Ho _ IH]; simpl.
  - rewrite (proj2 (String.eqb_eq _ _) Hop). reflexivity.
  - rewrite (proj2 (String.eqb_neq _ _) Ho). exact IH.
Qed.

(** Each list of operations splits at the first operation with a given
    signature, when there is one. *)
Lemma first_with_signature (ops : list Operation) (h : string) :
  Forall (fun o => OpSig o <> h) ops
  \/ exists pre op post,
       ops = (pre ++ op :: post)%list
       /\ Forall (fun o => OpSig o <> h) pre /\ OpSig op = h.
Proof.
  induction ops as [| o rest IH].
  - left. constructor.
  - destruct (String.eqb_spec (OpSig o) h) as [E | E].
    + right. exists [], o, rest. split; [reflexivity |].
      split; [constructor | exact E].
    + destruct IH as [IH | (pre & op & post & -> & Hpre & Hop)].
      * left. constructor; assumption.
      * right. exists (o :: pre), op, post. split; [reflexivity |].
        split; [constructor; assumption | exact Hop].
Qed.

(** X17.  [GetSvgString] and [DeleteShape] look only at the operations of
    the last block, and the first operation there with the signature asked
    for decides: [GetSvgString] returns its SVG element, and [DeleteShape]
    returns the remaining ink of the account of [myKeyPairInString] when
    the art node of the request is the art node of that operation, and a
    [ShapeOwnerError] otherwise. *)
Theorem shape_lookup_first_match (g : Globals) (lastBlk : Block)
  (args : DelShapeArgs) (pre post : list Operation) (op : Operation) :
  last (blockChain g) = Some lastBlk ->
  Ops lastBlk = (pre ++ op :: post)%list ->
  Forall (fun o => OpSig o <> shapeHash args) pre ->
  OpSig op = shapeHash args ->
  GetSvgString g (shapeHash args) = Returned (inl (AppShape op))
  /\ DeleteShape g args
     = if String.eqb (DelArtNodePK args) (PubKeyArtNode op)
       then inl (inkRemain
                   (readInk g (MinerInks lastBlk) (myKeyPairInString g)))
       else inr (ShapeOwnerError (shapeHash args)).
Proof.
  intros El Eops Hpre Hop. unfold GetSvgString, DeleteShape.
  rewrite El, Eops. split.
  - f_equal. apply GetSvgString_scan_first; assumption.
  - apply DeleteShape_scan_first; assumption.
Qed.

Lemma shape_lookup_first_match_witness :
  DeleteShape shapeAdded
    {| validateNum := 0; shapeHash := ShapeHash shapeReply;
       DelArtNodePK := "other" |}
  = inr (ShapeOwnerError (ShapeHash shapeReply)).
Proof.
  destruct (shape_lookup_first_match shapeAdded (lastBlock shapeAdded)
              {| validateNum := 0; shapeHash := ShapeHash shapeReply;
                 DelArtNodePK := "other" |}
              [] []
              {| AppShape :=
                   AppShape (default peerOp (head (Ops (lastBlock shapeAdded))));
                 OpSig := ShapeHash shapeReply;
                 PubKeyArtNode := "art" |}
              ltac:(by_evaluation) ltac:(by_evaluation)
              (List.Forall_nil _) eq_refl) as [_ H].
  exact H.
Defined.

(** X18.  Once a no-op block has been mined, no shape is found any more:
    the block carries no operation, so [GetSvgString] and [DeleteShape]
    return an [InvalidShapeHashError] for every hash, and [CloseCanvas]
    returns no operation. *)
Theorem mining_hides_shapes (fuel : nat) (g : Globals)
  (minerPubKey : string) (g' : Globals) :
  mineNoOpBlocks fuel g minerPubKey = Returned g' ->
  (forall h, GetSvgString g' h = Returned (inr (InvalidShapeHashError h)))
  /\ (forall args,
        DeleteShape g' args = inr (InvalidShapeHashError (shapeHash args)))
  /\ ReplyOps (CloseCanvas g') = [].
Proof.
  unfold mineNoOpBlocks.
  destruct (generateNoOpBlock fuel g minerPubKey) as [[blk g1] | |] eqn:E;
    [| discriminate | discriminate].
  intros [= <-].
  assert (Ops blk = []) as Hops.
  { revert E. unfold generateNoOpBlock.
    destruct (last (blockChain g)) as [lastBlk |].
    - destruct (calculateHash fuel lastBlk (difficultyOf g lastBlk))
        as [[lh ln] |]; [| discriminate].
      destruct (allocated (inkMaps g) (MinerInks lastBlk)); cbn [negb];
        [| discriminate].
      case_search h n E'. intros [= <- _]. reflexivity.
    - intros [= <- _]. reflexivity. }
  unfold GetSvgString, DeleteShape, CloseCanvas. simpl.
  rewrite last_snoc, Hops. simpl.
  split; [reflexivity |]. split; reflexivity.
Qed.

Lemma mining_hides_shapes_witness :
  GetSvgString shapeConfirmed (ShapeHash shapeReply)
  = Returned (inr (InvalidShapeHashError (ShapeHash shapeReply))).
Proof.
  destruct (mining_hides_shapes 64 shapeAdded myPubKeyStr shapeConfirmed
              ltac:(by_evaluation)) as [H _].
  apply H.
Defined.

(** X19.  In the state in which [AddShape] has appended its block, the
    shape hash of its reply is found: [GetSvgString] returns the SVG
    element of an operation of the last block that has that signature, and
    [DeleteShape] does not answer that the hash is invalid. *)
Theorem AddShape_shape_is_found (fuel : nat) (helper : SvgHelper)
  (g : Globals) (args : AddShapeStruct) (g' : Globals) (lastOne : Z)
  (reply : AddShapeReply) :
  AddShape fuel helper g args = Returned (g', AddShapeWaits lastOne reply) ->
  (exists blk op,
     last (blockChain g') = Some blk /\ In op (Ops blk)
     /\ OpSig op = ShapeHash reply
     /\ GetSvgString g' (ShapeHash reply) = Returned (inl (AppShape op)))
  /\ (forall a, shapeHash a = ShapeHash reply ->
        DeleteShape g' a <> inr (InvalidShapeHashError (ShapeHash reply))).
Proof.
  intros H.
  assert (exists blk op, last (blockChain g') = Some blk
                         /\ In op (Ops blk) /\ OpSig op = ShapeHash reply)
    as (blk & new & El & Hin & Hsig).
  { revert H. unfold AddShape.
    destruct (last (blockChain g)) as [lastBlk |]; [| discriminate].
    destruct (helper _ _ _ _ _) as [[spentInk err] canvas'].
    destruct err as [e |]; [discriminate |].
    case_search preHash pn Epre.
    destruct (totalInkSpentAndMinedByMiner _ _ _) as [inkSpent0 inkMined0].
    destruct (allocated (inkMaps _) _) eqn:Ea1; cbn [negb]; [| discriminate].
    destruct (allocated (opsMaps _) _) eqn:Ea2; cbn [negb]; [| discriminate].
    case_search h n E.
    intros [= <- <- <-]. simpl. rewrite last_snoc.
    eexists _, _. split; [reflexivity |]. simpl.
    split; [apply in_or_app; right; left; reflexivity | reflexivity]. }
  destruct (first_with_signature (Ops blk) (ShapeHash reply))
    as [Hnone | (pre & op & post & Eops & Hpre & Hop)].
  { exfalso. rewrite Forall_forall in Hnone.
    apply (Hnone new); [apply list_elem_of_In; exact Hin | exact Hsig]. }
  split.
  - exists blk, op. split; [exact El |].
    split; [rewrite Eops; apply in_or_app; right; left; reflexivity |].
    split; [exact Hop |].
    unfold GetSvgString. rewrite El, Eops. f_equal.
    apply GetSvgString_scan_first; assumption.
  - intros a Ha. unfold DeleteShape. rewrite El, Eops.
    rewrite <- Ha in Hpre, Hop.
    rewrite (DeleteShape_scan_first _ _ _ _ _ _ Hpre Hop).
    destruct (String.eqb (DelArtNodePK a) (PubKeyArtNode op)); discriminate.
Qed.

Lemma AddShape_shape_is_found_witness :
  exists blk op,
    last (blockChain shapeAdded) = Some blk /\ In op (Ops blk)
    /\ OpSig op = ShapeHash shapeReply
    /\ GetSvgString shapeAdded (ShapeHash shapeReply)
       = Returned (inl (AppShape op)).
Proof.
  destruct (AddShape_shape_is_found 64 (flatCost 5) (afterBlocks easy 2)
              (triangle "art") shapeAdded 1 shapeReply ltac:(by_evaluation))
    as [H _].
  exact H.
Defined.

(** X20.  In the state in which [AddShape] has appended its block,
    [CloseCanvas] reports the remaining ink of the reply of [AddShape] and
    lists the operations of the block before followed by the new one.  The
    ink map of the last block before the call is an allocated map. *)
Theorem CloseCanvas_after_AddShape (fuel : nat) (helper : SvgHelper)
  (g : Globals) (args : AddShapeStruct) (lastBlk : Block) (g' : Globals)
  (lastOne : Z) (reply : AddShapeReply) :
  last (blockChain g) = Some lastBlk ->
  (MinerInks lastBlk < List.length (inkMaps g))%nat ->
  AddShape fuel helper g args = Returned (g', AddShapeWaits lastOne reply) ->
  replyInkRemaining (CloseCanvas g') = InkRemaining reply
  /\ exists op,
       ReplyOps (CloseCanvas g') = (Ops lastBlk ++ [op])%list
       /\ OpSig op = ShapeHash reply
       /\ PubKeyArtNode op = ArtNodePK args.
Proof.
  intros El Hr. unfold AddShape. rewrite El.
  destruct (helper _ _ _ _ _) as [[spentInk err] canvas'].
  destruct err as [e |]; [discriminate |].
  case_search preHash pn Epre.
  destruct (totalInkSpentAndMinedByMiner _ _ _) as [inkSpent0 inkMined0].
  destruct (allocated (inkMaps _) _) eqn:Ea1; cbn [negb]; [| discriminate].
  destruct (allocated (opsMaps _) _) eqn:Ea2; cbn [negb]; [| discriminate].
  case_search h n E.
  intros [= <- <- <-]. unfold CloseCanvas. simpl. rewrite last_snoc. simpl.
  split.
  - unfold readInk, inkMap. simpl.
    rewrite list_lookup_insert_eq by exact Hr. simpl.
    rewrite lookup_insert_eq. reflexivity.
  - eexists. split; [reflexivity |]. split; reflexivity.
Qed.

Lemma CloseCanvas_after_AddShape_witness :
  replyInkRemaining (CloseCanvas shapeAdded) = InkRemaining shapeReply.
Proof.
  destruct (CloseCanvas_after_AddShape 64 (flatCost 5) (afterBlocks easy 2)
              (triangle "art") (lastBlock (afterBlocks easy 2)) shapeAdded 1
              shapeReply ltac:(by_evaluation) ltac:(vm_compute; lia)
              ltac:(by_evaluation)) as [H _].
  exact H.
Defined.

(** ** The children of a block *)




(** ** The form of a hash *)

Lemma bytes_le_range (n : nat) (x : Z) :
  Forall (fun b => 0 <= b < 256) (MD5.bytes_le n x).
Proof.
  revert x. induction n as [| n IH]; intros x; simpl; constructor.
  - change 255 with (Z.ones 8). rewrite Z.land_ones by lia.
    apply Z.mod_pos_bound. lia.
  - apply IH.
Qed.

Lemma MD5_sum_range (msg : list Z) :
  Forall (fun b => 0 <= b < 256) (MD5.sum msg).
Proof.
  unfold MD5.sum.
  destruct (MD5.blocks _ _ _) as [[[A B] C] D].
  rewrite !Forall_app. auto using bytes_le_range.
Qed.

Lemma hexdigit_In (n : Z) :
  0 <= n < 16 -> In (hexdigit n) (list_ascii_of_string "0123456789abcdef").
Proof.
  intros Hn. unfold hexdigit. apply nth_In. simpl. lia.
Qed.

Lemma hex_EncodeToString_digits (bs : list Z) :
  Forall (fun b => 0 <= b < 256) bs ->
  forall a, In a (list_ascii_of_string (hex_EncodeToString bs)) ->
    In a (list_ascii_of_string "0123456789abcdef").
Proof.
  induction 1 as [| b rest Hb _ IH]; intros a; simpl; [tauto |].
  intros [<- | [<- | Hin]].
  - apply hexdigit_In. split.
    + apply Z.div_pos; lia.
    + apply Z.div_lt_upper_bound; lia.
  - apply hexdigit_In. apply Z.mod_pos_bound. lia.
  - apply IH. exact Hin.
Qed.

(** X22.  Every hash that the miner computes, of a block or of a shape, is
    a string of 32 characters, each a digit or a letter from a to f. *)
Theorem computeNonceSecretHash_format (nonce secret : string) :
  String.length (computeNonceSecretHash nonce secret) = 32%nat
  /\ forall a,
       In a (list_ascii_of_string (computeNonceSecretHash nonce secret)) ->
       In a (list_ascii_of_string "0123456789abcdef").
Proof.
  split; [apply computeNonceSecretHash_length |].
  unfold computeNonceSecretHash.
  apply hex_EncodeToString_digits, MD5_sum_range.
Qed.

Lemma computeNonceSecretHash_format_witness :
  In "5"%char (list_ascii_of_string "0123456789abcdef").
Proof.
  apply (proj2 (computeNonceSecretHash_format "peer" "<path d=M 0 0 l 5 0/>")).
  vm_compute. left. reflexivity.
Defined.

(** ** A chain received from a peer *)

(** X23.  [SendBlockchain] never shortens the local chain, and leaves the
    settings, the key string and [currInkMined] as they were: on a chain
    that was not empty [GetInk] answers after it as before it, also when
    the chain was replaced.  Sending the same chain once more changes
    nothing. *)
Theorem SendBlockchain_frame (fuel : nat) (g : Globals) (bc : list Block)
  (g' : Globals) :
  SendBlockchain fuel g bc = Some g' ->
  (List.length (blockChain g) <= List.length (blockChain g'))%nat
  /\ settings g' = settings g
  /\ myKeyPairInString g' = myKeyPairInString g
  /\ currInkMined g' = currInkMined g
  /\ (blockChain g <> [] -> forall key, GetInk g' key = GetInk g key)
  /\ SendBlockchain fuel g' bc = Some g'.
Proof.
  intros H.
  destruct (SendBlockchain_cases g fuel bc g' H)
    as [-> | (-> & Hlen & _ & _)].
  - split; [lia |]. split; [reflexivity |]. split; [reflexivity |].
    split; [reflexivity |]. split; [reflexivity | exact H].
  - apply isSentChainLonger_spec in Hlen. unfold strictlyLonger in Hlen.
    simpl. split; [lia |]. split; [reflexivity |]. split; [reflexivity |].
    split; [reflexivity |]. split.
    + intros Hne key. unfold GetInk, minerInkRemain. simpl.
      destruct bc as [| b rest]; [simpl in Hlen; lia |].
      destruct (blockChain g); [contradiction | reflexivity].
    + unfold SendBlockchain, isSentChainLonger. simpl.
      rewrite Nat.ltb_irrefl. reflexivity.
Qed.

Lemma SendBlockchain_frame_witness :
  SendBlockchain 8 (set_blockChain (start hard) goodChain) goodChain
  = Some (set_blockChain (start hard) goodChain).
Proof.
  destruct (SendBlockchain_frame 8 (start hard) goodChain
              (set_blockChain (start hard) goodChain) ltac:(by_evaluation))
    as (_ & _ & _ & _ & _ & H).
  exact H.
Defined.

(** ** The client library: the request of AddShape *)

(** X24.  [AddShape] of the library, given a path string of at most 128
    bytes: when the stroke and the fill are both [transparent] it returns
    an [InvalidShapeSvgStringError] and sends nothing; otherwise it sends
    one request, which carries the shape type, the path string, the fill,
    the stroke and the key of the art node as given, and 1 as
    [ValidateNum] whatever [validateNum] the caller passed, and its error
    is the error of the call. *)
Theorem AddShape_request (c : BlockArtLib.MyCanvas)
  (validateNum shapeType : Z) (shapeSvgString fill stroke : string) :
  (String.length shapeSvgString <= 128)%nat ->
  let r :=
    BlockArtLib.AddShape c validateNum shapeType shapeSvgString fill stroke in
  let args :=
    {| BlockArtLib.ValidateNum := 1; BlockArtLib.SType := shapeType;
       BlockArtLib.ShapeSvgString := shapeSvgString;
       BlockArtLib.Fill := fill; BlockArtLib.Stroke := stroke;
       BlockArtLib.ArtNodePK := BlockArtLib.artnodePrivKey c |} in
  (stroke = "transparent" /\ fill = "transparent" ->
   BlockArtLib.ret_sent r = []
   /\ BlockArtLib.ret_err r
      = Some (BlockArtLib.InvalidShapeSvgStringError
                "fill and stroke can't both be transparent"))
  /\ (~ (stroke = "transparent" /\ fill = "transparent") ->
      BlockArtLib.ret_sent r = [BlockArtLib.InkMinerRPC_AddShape args]
      /\ BlockArtLib.ret_err r
         = option_map BlockArtLib.RpcError
             (snd (BlockArtLib.Call_AddShape (BlockArtLib.conn c) args))).
Proof.
  intros Hlen. cbv zeta. unfold BlockArtLib.AddShape.
  apply Nat.ltb_ge in Hlen. rewrite Hlen. split.
  - intros [-> ->]. simpl. split; reflexivity.
  - intros Hn.
    assert (String.eqb stroke fill && String.eqb fill "transparent" = false)
      as ->.
    { destruct (String.eqb_spec stroke fill) as [E | E]; [| reflexivity].
      destruct (String.eqb_spec fill "transparent") as [E' | E'];
        [| reflexivity].
      exfalso. apply Hn. split; congruence. }
    destruct (BlockArtLib.Call_AddShape _ _) as [reply err]. simpl.
    split; reflexivity.
Qed.

Lemma AddShape_request_witness :
  BlockArtLib.ret_sent
    (BlockArtLib.AddShape
       (canvasOn 64 (flatCost 5) (afterBlocks easy 2) "3081a40201010430" "art")
       7 0 "M 0 0 l 10 0 l 0 10 z" "transparent" "transparent")
  = [].
Proof.
  apply (proj1 (AddShape_request
                  (canvasOn 64 (flatCost 5) (afterBlocks easy 2)
                     "3081a40201010430" "art")
                  7 0 "M 0 0 l 10 0 l 0 10 z" "transparent" "transparent"
                  ltac:(simpl; lia))).
  split; reflexivity.
Defined.

(** ** The path strings that validSvgCommand accepts *)

Lemma validSvgCommand_from_spec (c rest : string) :
  (BlockArtLib.validSvgCommand_from c rest = None
   <-> forall a, In a (list_ascii_of_string rest) ->
         BlockArtLib.svgCommandChar a = true)
  /\ (BlockArtLib.validSvgCommand_from c rest = None
      \/ BlockArtLib.validSvgCommand_from c rest
         = Some (BlockArtLib.InvalidShapeSvgStringError c)).
Proof.
  induction rest as [| a rest [IH1 IH2]]; simpl.
  - split; [| left; reflexivity]. split; [intros _ a [] | reflexivity].
  - destruct (BlockArtLib.svgCommandChar a) eqn:Ea.
    + split; [| exact IH2]. rewrite IH1. split.
      * intros H x [<- | Hx]; [exact Ea | apply H; exact Hx].
      * intros H x Hx. apply H. right. exact Hx.
    + split; [| right; reflexivity]. split; [discriminate |].
      intros H. specialize (H a (or_introl eq_refl)). congruence.
Qed.

(** X25.  [validSvgCommand] accepts a path string exactly when each of its
    bytes is a space, one of the letters M, m, L, l, H, h, V, v, Z, z, or a
    digit; a string with any other byte, such as a minus sign, gets the
    [InvalidShapeSvgStringError] that carries the whole string. *)
Theorem validSvgCommand_accepts (c : string) :
  (BlockArtLib.validSvgCommand c = None
   <-> forall a, In a (list_ascii_of_string c) ->
         In a (list_ascii_of_string " MmLlHhVvZz0123456789"))
  /\ (BlockArtLib.validSvgCommand c = None
      \/ BlockArtLib.validSvgCommand c
         = Some (BlockArtLib.InvalidShapeSvgStringError c)).
Proof.
  unfold BlockArtLib.validSvgCommand.
  destruct (validSvgCommand_from_spec c c) as [H1 H2].
  split; [| exact H2]. rewrite H1.
  assert (forall a, BlockArtLib.svgCommandChar a = true
                    <-> In a (list_ascii_of_string " MmLlHhVvZz0123456789"))
    as Hc.
  { intros a. unfold BlockArtLib.svgCommandChar. rewrite existsb_exists.
    split.
    - intros (x & Hx & E). apply Ascii.eqb_eq in E. subst x. exact Hx.
    - intros Hx. exists a. split; [exact Hx | apply Ascii.eqb_refl]. }
  split; intros H a Ha; apply Hc, H, Ha.
Qed.

Lemma validSvgCommand_accepts_witness :
  BlockArtLib.validSvgCommand "M 0 0 l 40 0 v 40 h -40 z" <> None.
Proof.
  intros H.
  apply (proj1 (validSvgCommand_accepts "M 0 0 l 40 0 v 40 h -40 z")) with
    (a := "-"%char) in H.
  - vm_compute in H. intuition discriminate.
  - vm_compute. auto 30.
Defined.

(** ** The loop of main *)

Lemma generateNoOpBlock_shape (fuel : nat) (g : Globals) (k : string)
  (blk : Block) (g1 : Globals) :
  generateNoOpBlock fuel g k = Returned (blk, g1) ->
  Index blk = 1 /\ Ops blk = [] /\ blockChain g1 = blockChain g.
Proof.
  unfold generateNoOpBlock.
  destruct (last (blockChain g)) as [lastBlk |].
  - destruct (calculateHash fuel lastBlk (difficultyOf g lastBlk))
      as [[lh ln] |]; [| discriminate].
    destruct (allocated (inkMaps g) (MinerInks lastBlk)); cbn [negb];
      [| discriminate].
    case_search h n E. intros [= <- <-]. simpl.
    split; [reflexivity |]. split; reflexivity.
  - intros [= <- <-]. simpl. split; [reflexivity |]. split; reflexivity.
Qed.

Lemma main_iteration_chain (fuel : nat) (g : Globals) (k : string)
  (g' : Globals) :
  main_iteration fuel g k = Returned g' ->
  exists blk,
    blockChain g' = (blockChain g ++ [blk])%list
    /\ Index blk = 1 /\ Ops blk = [].
Proof.
  unfold main_iteration, mineNoOpBlocks.
  destruct (generateNoOpBlock fuel g k) as [[blk g1] | |] eqn:E;
    [| discriminate | discriminate].
  destruct (generateNoOpBlock_shape _ _ _ _ _ E) as (Hi & Ho & Hc).
  simpl. rewrite last_snoc. intros [= <-]. simpl.
  exists blk. rewrite Hc. split; [reflexivity |]. split; assumption.
Qed.

(** X26.  [n] rounds of the loop of [main] put [n] blocks on the chain and
    keep the blocks that were there.  Each of the new blocks has index 1
    and no operation, so the index of a mined block does not tell its
    place in the chain. *)
Theorem mine_appends_blocks (fuel n : nat) (g g' : Globals) :
  mine fuel n g = Returned g' ->
  exists blks,
    blockChain g' = (blockChain g ++ blks)%list
    /\ List.length blks = n
    /\ Forall (fun b => Index b = 1 /\ Ops b = []) blks.
Proof.
  revert g'. induction n as [| n IH]; intros g'.
  - intros [= <-]. exists []. rewrite app_nil_r.
    split; [reflexivity |]. split; [reflexivity | constructor].
  - unfold mine. simpl. fold (mine fuel n g).
    destruct (mine fuel n g) as [g1 | |]; [| discriminate | discriminate].
    intros H. destruct (IH g1 eq_refl) as (blks & Hc & Hl & Hf).
    apply main_iteration_chain in H as (blk & Hc' & Hi & Ho).
    exists (blks ++ [blk])%list. rewrite Hc', Hc, <- app_assoc.
    split; [reflexivity |]. split; [rewrite length_app; simpl; lia |].
    apply Forall_app. split; [exact Hf |].
    constructor; [split; assumption | constructor].
Qed.

Lemma mine_appends_blocks_witness :
  exists blks,
    blockChain (afterBlocks easy 2) = (blockChain (start easy) ++ blks)%list
    /\ List.length blks = 2%nat
    /\ Forall (fun b => Index b = 1 /\ Ops b = []) blks.
Proof.
  apply (mine_appends_blocks 64 2 (start easy) (afterBlocks easy 2)).
  by_evaluation.
Defined.

(** ** The ink account and the signature that AddShape writes *)

Lemma uint32_int64 (x : Z) : uint32 (int64 x) = uint32 x.
Proof.
  unfold uint32, int64.
  pose proof (Z.div_mod (x + 2 ^ 63) (2 ^ 64) ltac:(lia)) as H.
  replace ((x + 2 ^ 63) mod 2 ^ 64 - 2 ^ 63)
    with (x + (- ((x + 2 ^ 63) / 2 ^ 64) * 2 ^ 32) * 2 ^ 32) by lia.
  apply Z_mod_plus_full.
Qed.

(** X27.  The account that [AddShape] writes under [myKeyPairInString], in
    the ink map of the block before: its mined ink is the reward total of
    the blocks that the string of the package-level key produced, its
    spent ink is the ink the helper charged plus the cost total of those
    blocks, and its remaining ink is [currInkMined] less the ink charged,
    all in 32-bit arithmetic; the reply carries that remaining ink.  The
    other accounts of the map stay as they were.  The ink map of the block
    before is an allocated map. *)
Theorem AddShape_account (fuel : nat) (helper : SvgHelper) (g : Globals)
  (args : AddShapeStruct) (lastBlk : Block) (spentInk : Z)
  (canvas' : gmap string MapPoint) (g' : Globals) (lastOne : Z)
  (reply : AddShapeReply) :
  last (blockChain g) = Some lastBlk ->
  (MinerInks lastBlk < List.length (inkMaps g))%nat ->
  helper (ShapeSvgString args) (ArtNodePK args) (Fill args)
    (minerInkRemain g) (canvasMap g (CanvasInks lastBlk))
  = (spentInk, None, canvas') ->
  AddShape fuel helper g args = Returned (g', AddShapeWaits lastOne reply) ->
  let pkStr := getPubKeyInStr (myPrivKey g) in
  readInk g' (MinerInks lastBlk) (myKeyPairInString g)
  = {| inkMined := inkMinedBy g (blockChain g) pkStr;
       inkSpent := uint32 (spentInk + inkSpentBy (blockChain g) pkStr);
       inkRemain := uint32 (currInkMined g - spentInk) |}
  /\ InkRemaining reply = uint32 (currInkMined g - spentInk)
  /\ (forall k, k <> myKeyPairInString g ->
        readInk g' (MinerInks lastBlk) k = readInk g (MinerInks lastBlk) k).
Proof.
  intros El Hr Hh. unfold AddShape. rewrite El, Hh.
  case_search preHash pn Epre.
  rewrite totalInkSpentAndMinedByMiner_spec.
  destruct (allocated (inkMaps _) _) eqn:Ea1; cbn [negb]; [| discriminate].
  destruct (allocated (opsMaps _) _) eqn:Ea2; cbn [negb]; [| discriminate].
  case_search h n E.
  intros [= <- <- <-]. cbv zeta. unfold readInk, inkMap. simpl.
  rewrite list_lookup_insert_eq by exact Hr. simpl.
  assert (minerInkRemain g = currInkMined g) as Hm.
  { unfold minerInkRemain. destruct (blockChain g); [discriminate El |].
    reflexivity. }
  rewrite Hm, uint32_int64. split; [| split].
  - rewrite lookup_insert_eq. simpl. rewrite uint32_add_l. reflexivity.
  - reflexivity.
  - intros k Hk. rewrite lookup_insert_ne by congruence. reflexivity.
Qed.

Lemma AddShape_account_witness :
  InkRemaining shapeReply = uint32 (currInkMined (afterBlocks easy 2) - 5).
Proof.
  destruct (AddShape_account 64 (flatCost 5) (afterBlocks easy 2)
              (triangle "art") (lastBlock (afterBlocks easy 2)) 5
              (canvasMap (afterBlocks easy 2)
                 (CanvasInks (lastBlock (afterBlocks easy 2))))
              shapeAdded 1 shapeReply
              ltac:(by_evaluation) ltac:(vm_compute; lia) eq_refl
              ltac:(by_evaluation)) as (_ & H & _).
  exact H.
Defined.

Lemma validateBlockOpSigs_loop_app (k : string) (pre : list Operation)
  (op : Operation) :
  validateBlockOpSigs_loop k (pre ++ [op]) = true ->
  OpSig op = computeNonceSecretHash k (AppShape op).
Proof.
  induction pre as [| o rest IH]; simpl.
  - destruct (String.eqb_spec (computeNonceSecretHash k (AppShape op))
                (OpSig op)) as [E | E]; [auto | discriminate].
  - destruct (String.eqb (computeNonceSecretHash k (AppShape o)) (OpSig o));
      [exact IH | discriminate].
Qed.

(** X28.  [AddShape] signs its operation with the hash of the SVG element
    followed by the string of the package-level key, whereas validation
    expects the hash of the producer key of the block followed by the SVG
    element.  So unless these two hashes are equal, the block that
    [AddShape] appends fails [validateBlockOpSigs], and no chain that
    holds the block passes [validateBlockChain], under whatever
    settings. *)
Theorem AddShape_block_fails_validation (fuel : nat) (helper : SvgHelper)
  (g : Globals) (args : AddShapeStruct) (g' : Globals) (lastOne : Z)
  (reply : AddShapeReply) :
  AddShape fuel helper g args = Returned (g', AddShapeWaits lastOne reply) ->
  exists blk op,
    last (blockChain g') = Some blk
    /\ last (Ops blk) = Some op
    /\ OpSig op
       = computeNonceSecretHash (AppShape op) (getPubKeyInStr (myPrivKey g))
    /\ (OpSig op
        <> computeNonceSecretHash (myKeyPairInString g) (AppShape op) ->
        validateBlockOpSigs blk = false
        /\ forall fuel' peer bc,
             In blk bc -> validateBlockChain fuel' peer bc <> Some true).
Proof.
  unfold AddShape.
  destruct (last (blockChain g)) as [lastBlk |] eqn:El; [| discriminate].
  destruct (helper _ _ _ _ _) as [[spentInk err] canvas'].
  destruct err as [e |]; [discriminate |].
  case_search preHash pn Epre.
  destruct (totalInkSpentAndMinedByMiner _ _ _) as [inkSpent0 inkMined0].
  destruct (allocated (inkMaps _) _) eqn:Ea1; cbn [negb]; [| discriminate].
  destruct (allocated (opsMaps _) _) eqn:Ea2; cbn [negb]; [| discriminate].
  case_search h n E.
  intros [= <- <- <-]. simpl. rewrite last_snoc.
  eexists _, _. split; [reflexivity |]. simpl. rewrite last_snoc.
  split; [reflexivity |]. split; [reflexivity |].
  simpl. intros Hne.
  match goal with
  | |- validateBlockOpSigs ?b = false /\ _ =>
      assert (validateBlockOpSigs b = false) as Hs
  end.
  { unfold validateBlockOpSigs. simpl.
    match goal with
    | |- ?x = false => destruct x eqn:Ev; [| reflexivity]
    end.
    apply validateBlockOpSigs_loop_app in Ev. simpl in Ev.
    exfalso. apply Hne. exact Ev. }
  split; [exact Hs |].
  intros fuel' peer bc Hin Hv. unfold validateBlockChain in Hv.
  apply validateBlockChain_from_true in Hv as [_ Hc].
  rewrite Forall_forall in Hc. apply list_elem_of_In in Hin.
  destruct (Hc _ Hin) as [_ Hsig]. congruence.
Qed.

Lemma AddShape_block_fails_validation_witness :
  exists blk,
    last (blockChain shapeAdded) = Some blk
    /\ validateBlockOpSigs blk = false.
Proof.
  destruct (AddShape_block_fails_validation 64 (flatCost 5)
              (afterBlocks easy 2) (triangle "art") shapeAdded 1 shapeReply
              ltac:(by_evaluation))
    as (blk & op & El & Eo & _ & H).
  exists blk. split; [exact El |]. apply H.
  vm_compute in El. injection El as <-.
  vm_compute in Eo. injection Eo as <-.
  vm_compute. discriminate.
Defined.

(** ** The chain that main mines *)

Lemma generateNoOpBlock_maps (fuel : nat) (g : Globals) (k : string)
  (blk : Block) (g1 : Globals) :
  generateNoOpBlock fuel g k = Returned (blk, g1) ->
  match last (blockChain g) with
  | None =>
      MinerInks blk = List.length (inkMaps g)
      /\ CanvasInks blk = List.length (canvasMaps g)
      /\ CanvasOperations blk = List.length (opsMaps g)
  | Some lastBlk =>
      MinerInks blk = MinerInks lastBlk
      /\ CanvasInks blk = CanvasInks lastBlk
      /\ CanvasOperations blk = CanvasOperations lastBlk
  end.
Proof.
  unfold generateNoOpBlock.
  destruct (last (blockChain g)) as [lastBlk |].
  - destruct (calculateHash fuel lastBlk (difficultyOf g lastBlk))
      as [[lh ln] |]; [| discriminate].
    destruct (allocated (inkMaps g) (MinerInks lastBlk)); cbn [negb];
      [| discriminate].
    case_search h n E. intros [= <- _]. simpl.
    split; [reflexivity |]. split; reflexivity.
  - intros [= <- _]. simpl. split; [reflexivity |]. split; reflexivity.
Qed.

Section SharedMaps.

Variables mInks cInks cOps : ref.

(** One round of the loop keeps this: each block of the chain holds the
    maps [mInks], [cInks] and [cOps], and as long as the chain is empty
    these are the positions of the maps that a first block would get. *)
Lemma main_iteration_maps (fuel : nat) (g : Globals) (k : string)
  (g' : Globals) :
  Forall (fun b => MinerInks b = mInks /\ CanvasInks b = cInks
                   /\ CanvasOperations b = cOps) (blockChain g) ->
  (blockChain g = [] ->
   List.length (inkMaps g) = mInks /\ List.length (canvasMaps g) = cInks
   /\ List.length (opsMaps g) = cOps) ->
  main_iteration fuel g k = Returned g' ->
  Forall (fun b => MinerInks b = mInks /\ CanvasInks b = cInks
                   /\ CanvasOperations b = cOps) (blockChain g')
  /\ blockChain g' <> [].
Proof.
  intros Hall Hfresh. unfold main_iteration, mineNoOpBlocks.
  destruct (generateNoOpBlock fuel g k) as [[blk g1] | |] eqn:E;
    [| discriminate | discriminate].
  destruct (generateNoOpBlock_shape _ _ _ _ _ E) as (_ & _ & Hc).
  pose proof (generateNoOpBlock_maps _ _ _ _ _ E) as Hm.
  simpl. rewrite last_snoc. intros [= <-]. simpl. rewrite Hc. split.
  - apply Forall_app. split; [exact Hall |].
    constructor; [| constructor].
    destruct (last (blockChain g)) as [lastBlk |] eqn:El.
    + rewrite Forall_forall in Hall.
      destruct (Hall lastBlk (last_Some_elem_of _ _ El)) as (H1 & H2 & H3).
      destruct Hm as (E1 & E2 & E3).
      split; [congruence |]. split; congruence.
    + apply last_None in El. destruct (Hfresh El) as (H1 & H2 & H3).
      destruct Hm as (E1 & E2 & E3).
      split; [congruence |]. split; congruence.
  - destruct (blockChain g); discriminate.
Qed.

Lemma mine_maps (fuel n : nat) (g g' : Globals) :
  blockChain g = [] ->
  List.length (inkMaps g) = mInks ->
  List.length (canvasMaps g) = cInks ->
  List.length (opsMaps g) = cOps ->
  mine fuel n g = Returned g' ->
  Forall (fun b => MinerInks b = mInks /\ CanvasInks b = cInks
                   /\ CanvasOperations b = cOps) (blockChain g')
  /\ (blockChain g' = [] -> g' = g).
Proof.
  intros Hg H1 H2 H3. revert g'. induction n as [| n IH]; intros g'.
  - intros [= <-]. rewrite Hg. split; [constructor | reflexivity].
  - unfold mine. simpl. fold (mine fuel n g).
    destruct (mine fuel n g) as [g1 | |]; [| discriminate | discriminate].
    destruct (IH g1 eq_refl) as [Hall Hsame]. intros H.
    destruct (main_iteration_maps fuel g1 myPubKeyStr g' Hall) as [A B].
    + intros Hnil. rewrite (Hsame Hnil). auto.
    + exact H.
    + split; [exact A | intros Hnil; contradiction].
Qed.

End SharedMaps.

(** X29.  The blocks that the loop of [main] mines from the empty chain
    all hold the same three map objects, those that [generateFirstBlock]
    made for the first block: the ink accounts, the canvas and the
    operation lists that one block shows are those that every block
    shows. *)
Theorem mined_chain_shares_maps (fuel n : nat) (g g' : Globals) :
  blockChain g = [] ->
  mine fuel n g = Returned g' ->
  Forall (fun b => MinerInks b = List.length (inkMaps g)
                   /\ CanvasInks b = List.length (canvasMaps g)
                   /\ CanvasOperations b = List.length (opsMaps g))
    (blockChain g').
Proof.
  intros Hg H.
  apply (mine_maps (List.length (inkMaps g)) (List.length (canvasMaps g))
           (List.length (opsMaps g)) fuel n g g' Hg eq_refl eq_refl eq_refl H).
Qed.

Lemma mined_chain_shares_maps_witness :
  Forall (fun b => MinerInks b = List.length (inkMaps (start easy))
                   /\ CanvasInks b = List.length (canvasMaps (start easy))
                   /\ CanvasOperations b = List.length (opsMaps (start easy)))
    (blockChain (afterBlocks easy 2)).
Proof.
  apply (mined_chain_shares_maps 64 2 (start easy) (afterBlocks easy 2)).
  - reflexivity.
  - by_evaluation.
Defined.

(** ** The parent hash of a mined block *)

(** X30.  When the last block of the chain has its proof of work (its
    stored nonce is the first at which its hash ends in the zeros of its
    difficulty), the block that [mineNoOpBlocks] appends names the hash of
    that last block as its parent hash. *)
Theorem mined_block_names_parent (fuel : nat) (g : Globals)
  (minerPubKey : string) (lastBlk : Block) (g' : Globals) :
  last (blockChain g) = Some lastBlk ->
  nonceInRange lastBlk ->
  proofOfWork g lastBlk ->
  mineNoOpBlocks fuel g minerPubKey = Returned g' ->
  exists blk,
    last (blockChain g') = Some blk /\ PrevHash blk = blockHash lastBlk.
Proof.
  intros El Hr Hp. unfold mineNoOpBlocks, generateNoOpBlock. rewrite El.
  destruct (calculateHash fuel lastBlk (difficultyOf g lastBlk))
    as [[lh ln] |] eqn:E1; [| discriminate].
  destruct (allocated (inkMaps g) (MinerInks lastBlk)); cbn [negb];
    [| discriminate].
  case_search h n E. intros [= <-]. simpl. rewrite last_snoc.
  eexists. split; [reflexivity |]. simpl.
  pose proof (proofOfWork_validates g lastBlk Hr Hp) as Hv.
  apply validateBlockHashNonce_true in Hv as (_ & Hc & _).
  unfold calculateHash in E1, Hc.
  pose proof (calculateHash_from_mono fuel
                (Nat.max fuel (S (Z.to_nat (Nonce lastBlk)))) _ _ _ _
                ltac:(lia) E1) as A.
  pose proof (calculateHash_from_mono (S (Z.to_nat (Nonce lastBlk)))
                (Nat.max fuel (S (Z.to_nat (Nonce lastBlk)))) _ _ _ _
                ltac:(lia) Hc) as B.
  congruence.
Qed.

Lemma mined_block_names_parent_witness :
  exists blk,
    last (blockChain sameKeyStale) = Some blk
    /\ PrevHash blk = blockHash (lastBlock sameKeyOnce).
Proof.
  assert (Nonce (lastBlock sameKeyOnce) = 0) as En by by_evaluation.
  apply (mined_block_names_parent 64 sameKeyOnce "<nil><nil>"
           (lastBlock sameKeyOnce) sameKeyStale).
  - by_evaluation.
  - unfold nonceInRange. rewrite En. lia.
  - split; [| split].
    + intros H. vm_compute in H. discriminate H.
    + apply hasNZeros_spec. by_evaluation.
    + intros k Hk. rewrite En in Hk. lia.
  - by_evaluation.
Defined.

(** ** Assignments to a nil map *)

(** Mining on a chain whose last block holds a nil ink map: once the hash
    of the last block is found, the assignment to the account panics. *)
Lemma generateNoOpBlock_nil_map (fuel : nat) (g : Globals)
  (minerPubKey : string) (lastBlk : Block) (h n : string) :
  last (blockChain g) = Some lastBlk ->
  calculateHash fuel lastBlk (difficultyOf g lastBlk) = Some (h, n) ->
  allocated (inkMaps g) (MinerInks lastBlk) = false ->
  generateNoOpBlock fuel g minerPubKey = Panicked
  /\ mineNoOpBlocks fuel g minerPubKey = Panicked.
Proof.
  intros El Ec Ea. unfold mineNoOpBlocks, generateNoOpBlock.
  rewrite El, Ec, Ea. split; reflexivity.
Qed.

(** [AddShape] on a chain whose last block holds a nil ink map or a nil
    map of operation lists: once the helper has accepted the shape and the
    hash of the last block is found, the assignment panics. *)
Lemma AddShape_nil_map (fuel : nat) (helper : SvgHelper) (g : Globals)
  (args : AddShapeStruct) (lastBlk : Block) (spentInk : Z)
  (canvas' : gmap string MapPoint) (h n : string) :
  last (blockChain g) = Some lastBlk ->
  helper (ShapeSvgString args) (ArtNodePK args) (Fill args)
    (minerInkRemain g) (canvasMap g (CanvasInks lastBlk))
  = (spentInk, None, canvas') ->
  calculateHash fuel lastBlk (PoWDifficultyOpBlock (settings g)) = Some (h, n) ->
  allocated (inkMaps g) (MinerInks lastBlk) = false
  \/ allocated (opsMaps g) (CanvasOperations lastBlk) = false ->
  AddShape fuel helper g args = Panicked.
Proof.
  intros El Eh Ec Ea. unfold AddShape. rewrite El, Eh. simpl. rewrite Ec.
  destruct (totalInkSpentAndMinedByMiner _ _ _) as [inkSpent0 inkMined0].
  simpl.
  destruct (allocated (inkMaps g) (MinerInks lastBlk)) eqn:E1; cbn [negb];
    [| reflexivity].
  destruct Ea as [Ea | Ea]; [discriminate Ea |]. rewrite Ea. reflexivity.
Qed.

(** A miner that has taken the chain of two blocks from a peer, whose maps
    came as nil, panics when it mines its next block and when it adds a
    shape. *)
Example adopted_chain_with_nil_maps :
  let g := set_blockChain (start hard) goodChain in
  SendBlockchain 8 (start hard) goodChain = Some g
  /\ mineNoOpBlocks 64 g myPubKeyStr = Panicked
  /\ AddShape 64 (flatCost 5) g (triangle "art") = Panicked.
Proof. conjuncts; by_evaluation. Qed.
